(** * Fixed-point autocorrelation kernel ([telecom/autcor00/autcor00.c])

    A shallow embedding of [fxpAutoCorrelation] and the properties its
    specification states about it, followed by further properties of the
    kernel and of the path helper [efn] of the harness library
    ([th_lite/src/thlib.c]).

    Modelling conventions.
    - The two pointer arguments [InputData] and [AutoCorrData] denote two
      distinct array objects (the data model forbids aliasing); each is a
      list of cells and both live in one [machine] record, which the kernel
      threads through its loads and stores.
    - An array access outside its object has no defined result: [load] and
      [store] return [None] there, and so does every computation after.
    - Every successful access is appended to a log, so that statements about
      which cells the kernel touches can be made.
    - [e_s16] and [e_s32] values are mathematical integers; a conversion to
      such a type is the two's-complement wrap-around.  The loop counters
      [i], [lag] and [LastIndex] have the native integer type [n_int]: in a
      valid call they stay within [0, 32767], and for any arguments that fit
      [e_s16] within [-65535, 32767], so no wrap-around is written for
      them.
    - [x >> n] on a signed 32-bit operand is the arithmetic shift, that is,
      floor division by [2 ^ n], for [0 <= n <= 31].  C leaves the shift
      undefined for any other count; there the model takes the count modulo
      32, as the shift instructions of 32-bit targets do ([shift_right]). *)

From Stdlib Require Import ZArith Lia List Ascii String.
From stdpp Require Import base option list.

Local Open Scope Z_scope.

(** ** Machine integers *)

(** Signed two's-complement wrap-around to [w] bits. *)
Definition wrap (w x : Z) : Z := (x + 2 ^ (w - 1)) mod 2 ^ w - 2 ^ (w - 1).

(** Modelled from the spec: the declarations of the types [e_s16] and
    [e_s32] (header [eembc_dt.h]) are not part of the sources at hand; the
    specification describes them as signed 16-bit and signed 32-bit
    integers.  [e_s16 x] and [e_s32 x] model the casts [(e_s16) x] and
    [(e_s32) x]. *)
Definition e_s16 (x : Z) : Z := wrap 16 x.
Definition e_s32 (x : Z) : Z := wrap 32 x.

Definition is_s16 (x : Z) : Prop := -32768 <= x <= 32767.
Definition is_s32 (x : Z) : Prop := -2147483648 <= x <= 2147483647.

(** ** Memory and the kernel monad *)

Inductive access : Type :=
| Read (i : Z)                (* InputData[i] was read *)
| Write (i : Z) (v : Z).      (* AutoCorrData[i] = v was executed *)

Record machine : Type := Machine {
  InputData : list Z;
  AutoCorrData : list Z;
  accesses : list access
}.

Definition log (e : access) (m : machine) : machine :=
  Machine (InputData m) (AutoCorrData m) (accesses m ++ [e]).

Definition set_output (out : list Z) (m : machine) : machine :=
  Machine (InputData m) out (accesses m).

(** Computations that read and write the machine and may go wrong. *)
Definition kernel (A : Type) : Type := machine -> option (A * machine).

Definition ret {A} (a : A) : kernel A := fun m => Some (a, m).

Definition bind {A B} (c : kernel A) (k : A -> kernel B) : kernel B :=
  fun m => match c m with
           | Some (a, m') => k a m'
           | None => None
           end.

Notation "x <- c ;; k" := (bind c (fun x => k))
  (at level 100, c at next level, right associativity).

(** [InputData[i]] *)
Definition load (i : Z) : kernel Z := fun m =>
  if i <? 0 then None
  else match InputData m !! Z.to_nat i with
       | Some v => Some (v, log (Read i) m)
       | None => None
       end.

(** [AutoCorrData[i] = v] *)
Definition store (i v : Z) : kernel unit := fun m =>
  if (i <? 0) || (Z.of_nat (length (AutoCorrData m)) <=? i) then None
  else Some (tt, log (Write i v) (set_output (<[Z.to_nat i := v]> (AutoCorrData m)) m)).

(** [for (i = lo; i < hi; i++) a = body i a]: the body runs
    [max 0 (hi - lo)] times, [for_range] counts the remaining runs. *)
Fixpoint for_range {A} (n : nat) (i : Z) (body : Z -> A -> kernel A) (a : A)
  : kernel A :=
  match n with
  | O => ret a
  | S n' => a' <- body i a ;; for_range n' (i + 1) body a'
  end.

Definition for_loop {A} (lo hi : Z) (body : Z -> A -> kernel A) (a : A)
  : kernel A :=
  for_range (Z.to_nat (hi - lo)) lo body a.

(** ** The kernel *)

(** [x >> n] for a 32-bit signed [x]: the arithmetic shift by [n] when
    [0 <= n <= 31]; for any other count, which C leaves undefined, the shift
    by [n] modulo 32. *)
Definition shift_right (x n : Z) : Z := Z.shiftr x (n mod 32).

(** [Accumulator += ((e_s32) InputData[i] * (e_s32) InputData[i+lag]) >> Scale;] *)
Definition accumulate (lag Scale : Z) (i Accumulator : Z) : kernel Z :=
  x <- load i ;;
  y <- load (i + lag) ;;
  ret (e_s32 (Accumulator + shift_right (e_s32 (e_s32 x * e_s32 y)) Scale)).

(** The body of the loop over [lag]. *)
Definition correlate (DataSize Scale : Z) (lag : Z) (_ : unit) : kernel unit :=
  let LastIndex := DataSize - lag in
  Accumulator <- for_loop 0 LastIndex (accumulate lag Scale) 0 ;;
  store lag (e_s16 (Z.shiftr Accumulator 16)).

Definition fxpAutoCorrelation (DataSize NumberOfLags Scale : Z) : kernel unit :=
  for_loop 0 NumberOfLags (correlate DataSize Scale) tt.

(** Running the kernel on given buffers, with an empty log. *)
Definition run (input output : list Z) (DataSize NumberOfLags Scale : Z)
  : option (unit * machine) :=
  fxpAutoCorrelation DataSize NumberOfLags Scale (Machine input output []).

(** ** The values the kernel computes

    Pure readings of the arithmetic of the two loops, on an input whose
    cells are all present ([sample] is the cell's content). *)

(** Sample [i] of the input sequence (0 outside of it). *)
Definition sample (input : list Z) (i : Z) : Z :=
  default 0 (input !! Z.to_nat i).

(** The term added for index [i]. *)
Definition term (input : list Z) (lag Scale : Z) (i : Z) : Z :=
  shift_right (e_s32 (e_s32 (sample input i) * e_s32 (sample input (i + lag))))
              Scale.

(** The accumulator after the terms [i, i + n) were added to [acc]. *)
Fixpoint accumulated (input : list Z) (lag Scale : Z) (i : Z) (n : nat)
  (acc : Z) : Z :=
  match n with
  | O => acc
  | S n' => accumulated input lag Scale (i + 1) n'
              (e_s32 (acc + term input lag Scale i))
  end.

(** The value stored for [lag]. *)
Definition stored (input : list Z) (DataSize Scale : Z) (lag : Z) : Z :=
  e_s16 (Z.shiftr (accumulated input lag Scale 0 (Z.to_nat (DataSize - lag)) 0) 16).

(** ** Reference quantities, worded as the specification does *)

(** [f i + f (i+1) + ... + f (i+n-1)] *)
Fixpoint sum_range (f : Z -> Z) (i : Z) (n : nat) : Z :=
  match n with
  | O => 0
  | S n' => f i + sum_range f (i + 1) n'
  end.

(** The widened product of the samples at distance [L], floor-divided by
    [2 ^ scale]. *)
Definition scaled_product (input : list Z) (L scale : Z) (i : Z) : Z :=
  (sample input i * sample input (i + L)) / 2 ^ scale.

(** The sum of the [dataSize - L] scaled products at lag [L]. *)
Definition lag_sum (input : list Z) (dataSize L scale : Z) : Z :=
  sum_range (scaled_product input L scale) 0 (Z.to_nat (dataSize - L)).

(** The coefficient at lag [L]: the 32-bit accumulator, shifted right by 16
    and truncated to 16 bits. *)
Definition coefficient (input : list Z) (dataSize scale : Z) (L : Z) : Z :=
  e_s16 (e_s32 (lag_sum input dataSize L scale) / 2 ^ 16).

(** The reference variant without the per-term shift: products are summed
    as they are in the 32-bit domain. *)
Definition unshifted_sum (input : list Z) (dataSize L : Z) : Z :=
  sum_range (fun i => sample input i * sample input (i + L)) 0
            (Z.to_nat (dataSize - L)).

Definition reference_coefficient (input : list Z) (dataSize : Z) (L : Z) : Z :=
  e_s16 (e_s32 (unshifted_sum input dataSize L) / 2 ^ 16).

Definition reference_output (input : list Z) (dataSize numberOfLags : Z)
  : list Z :=
  reference_coefficient input dataSize <$> seqZ 0 numberOfLags.

(** An access stays inside the first [DataSize] input cells, respectively
    the first [NumberOfLags] output cells. *)
Definition in_bounds (DataSize NumberOfLags : Z) (e : access) : Prop :=
  match e with
  | Read i => 0 <= i < DataSize
  | Write i _ => 0 <= i < NumberOfLags
  end.

(** Appending a batch of accesses to the log. *)
Definition logs (evs : list access) (m : machine) : machine :=
  Machine (InputData m) (AutoCorrData m) (accesses m ++ evs).

(** The machine after the cells [lag, lag + length ws) of the output were
    overwritten with [ws], with the accesses [evs] logged. *)
Definition writes (lag : nat) (ws : list Z) (evs : list access) (m : machine)
  : machine :=
  Machine (InputData m) (list_inserts lag ws (AutoCorrData m))
          (accesses m ++ evs).

(** Two results move in lockstep: both are failures, or both are successes
    with the same value and final machines related by [post]. *)
Definition lockstep {A} (r1 r2 : option (A * machine))
  (post : machine -> machine -> Prop) : Prop :=
  (r1 = None /\ r2 = None) \/
  (exists a m1' m2', r1 = Some (a, m1') /\ r2 = Some (a, m2') /\ post m1' m2').




(** The caller's side of the contract: the buffers hold [DataSize] samples
    and [NumberOfLags] coefficients, and [0 <= NumberOfLags < DataSize]. *)
Definition buffers_fit (m : machine) (DataSize NumberOfLags : Z) : Prop :=
  DataSize <= Z.of_nat (length (InputData m)) /\
  NumberOfLags <= Z.of_nat (length (AutoCorrData m)) /\
  0 <= NumberOfLags < DataSize.

(** A valid call: the buffers fit, the input cells hold [e_s16] values and
    the scale is not negative. *)
Definition valid_call (m : machine) (DataSize NumberOfLags Scale : Z) : Prop :=
  buffers_fit m DataSize NumberOfLags /\
  Forall is_s16 (InputData m) /\
  0 <= Scale.

(** ** The accesses of a call, in order *)

(** The reads of the inner loop for the indices [i, i + n): the two samples
    of each term, left operand first. *)
Fixpoint reads_from (lag : Z) (i : Z) (n : nat) : list access :=
  match n with
  | O => []
  | S n' => Read i :: Read (i + lag) :: reads_from lag (i + 1) n'
  end.

(** The accesses of one run of the body of the loop over the lags. *)
Definition lag_trace (input : list Z) (DataSize Scale : Z) (lag : Z)
  : list access :=
  reads_from lag 0 (Z.to_nat (DataSize - lag))
  ++ [Write lag (stored input DataSize Scale lag)].

(** The accesses of the [n] lags from [lag] on. *)
Fixpoint kernel_trace (input : list Z) (DataSize Scale : Z) (lag : Z) (n : nat)
  : list access :=
  match n with
  | O => []
  | S n' => lag_trace input DataSize Scale lag
            ++ kernel_trace input DataSize Scale (lag + 1) n'
  end.

(** The stores among a list of accesses, as pairs of index and value. *)
Fixpoint stores (evs : list access) : list (Z * Z) :=
  match evs with
  | [] => []
  | Read _ :: evs' => stores evs'
  | Write i v :: evs' => (i, v) :: stores evs'
  end.

(** The number of reads among a list of accesses. *)
Fixpoint count_reads (evs : list access) : Z :=
  match evs with
  | [] => 0
  | Read _ :: evs' => 1 + count_reads evs'
  | Write _ _ :: evs' => count_reads evs'
  end.

(** ** File names ([th_lite/src/thlib.c])

    A [const char *] is modelled by the cells of its object from the pointer
    on; the string it holds ends before the first NUL cell.  A pointer into
    the same object is an offset from the first one. *)

(** [*s == '/' || *s == backslash || *s == ':'], the backslash being the
    character of code 92. *)
Definition is_separator (c : ascii) : bool :=
  (c =? "/")%char || (c =? "092")%char || (c =? ":")%char.

(** The loop of [efn]: [cells] are the cells from [s] on, [s] and [end_]
    are offsets from [fn].  Running off the object without meeting a NUL
    has no defined result. *)
Fixpoint efn_loop (cells : list ascii) (s end_ : nat) : option nat :=
  match cells with
  | [] => None
  | c :: cells' =>
      if (c =? zero)%char then Some end_
      else efn_loop cells' (S s) (if is_separator c then S s else end_)
  end.

(** [efn]: the offset of the file name portion of the path [fn]. *)
Definition efn (fn : list ascii) : option nat := efn_loop fn 0 0.

(** A cell that is not the terminator, and one that is no path separator. *)
Definition not_nul (c : ascii) : Prop := c <> zero.
Definition no_separator (c : ascii) : Prop := is_separator c = false.

(** * Lemmas *)

Example run_small :
  run [4; 2; 1; -3; 5] [7; 7; 7; 7] 5 3 0
  = Some (tt, Machine [4; 2; 1; -3; 5] [0; -1; 0; 7]
                [Read 0; Read 0; Read 1; Read 1; Read 2; Read 2; Read 3; Read 3;
                 Read 4; Read 4; Write 0 0;
                 Read 0; Read 1; Read 1; Read 2; Read 2; Read 3; Read 3; Read 4;
                 Write 1 (-1);
                 Read 0; Read 2; Read 1; Read 3; Read 2; Read 4; Write 2 0]).
Proof. reflexivity. Qed.

(** ** Wrap-around *)

Lemma wrap_range (w x : Z) :
  0 < w -> - 2 ^ (w - 1) <= wrap w x < 2 ^ (w - 1).
Proof.
  intros Hw. unfold wrap.
  assert (H2 : 2 ^ w = 2 * 2 ^ (w - 1)).
  { rewrite <- Z.pow_succ_r by lia. f_equal. lia. }
  assert (Hp : 0 < 2 ^ (w - 1)) by (apply Z.pow_pos_nonneg; lia).
  pose proof (Z.mod_pos_bound (x + 2 ^ (w - 1)) (2 ^ w)) as Hm.
  lia.
Qed.

Lemma wrap_small (w x : Z) :
  0 < w -> - 2 ^ (w - 1) <= x < 2 ^ (w - 1) -> wrap w x = x.
Proof.
  intros Hw Hx. unfold wrap.
  assert (H2 : 2 ^ w = 2 * 2 ^ (w - 1)).
  { rewrite <- Z.pow_succ_r by lia. f_equal. lia. }
  rewrite Z.mod_small by lia. lia.
Qed.

Lemma wrap_add_l (w x y : Z) : wrap w (wrap w x + y) = wrap w (x + y).
Proof.
  unfold wrap. f_equal.
  replace ((x + 2 ^ (w - 1)) mod 2 ^ w - 2 ^ (w - 1) + y + 2 ^ (w - 1))
    with ((x + 2 ^ (w - 1)) mod 2 ^ w + y) by lia.
  rewrite Zplus_mod_idemp_l. f_equal. lia.
Qed.

Lemma e_s32_range (x : Z) : is_s32 (e_s32 x).
Proof.
  pose proof (wrap_range 32 x ltac:(lia)) as H.
  unfold is_s32, e_s32. change (2 ^ (32 - 1)) with 2147483648 in H. lia.
Qed.

Lemma e_s32_small (x : Z) : is_s32 x -> e_s32 x = x.
Proof.
  unfold is_s32, e_s32. intros H. apply wrap_small; [lia |].
  change (2 ^ (32 - 1)) with 2147483648. lia.
Qed.

Lemma e_s16_small (x : Z) : is_s16 x -> e_s16 x = x.
Proof.
  unfold is_s16, e_s16. intros H. apply wrap_small; [lia |].
  change (2 ^ (16 - 1)) with 32768. lia.
Qed.

Lemma e_s32_add_l (x y : Z) : e_s32 (e_s32 x + y) = e_s32 (x + y).
Proof. apply wrap_add_l. Qed.

Lemma is_s16_widen (x : Z) : is_s16 x -> is_s32 x.
Proof. unfold is_s16, is_s32. lia. Qed.

(** The product of two 16-bit values fits 32 bits: the widened multiply
    does not overflow. *)
Lemma product_fits (x y : Z) : is_s16 x -> is_s16 y -> is_s32 (x * y).
Proof. unfold is_s16, is_s32. nia. Qed.

Lemma widened_product (x y : Z) :
  is_s16 x -> is_s16 y -> e_s32 (e_s32 x * e_s32 y) = x * y.
Proof.
  intros Hx Hy.
  rewrite (e_s32_small x), (e_s32_small y) by auto using is_s16_widen.
  apply e_s32_small, product_fits; assumption.
Qed.

(** The most significant word of a 32-bit value fits 16 bits: the final
    narrowing discards nothing. *)
Lemma msw_fits (x : Z) : is_s32 x -> is_s16 (x / 2 ^ 16).
Proof.
  unfold is_s32, is_s16. intros H. change (2 ^ 16) with 65536.
  split.
  - apply Z.div_le_lower_bound; lia.
  - assert (x / 65536 < 32768); [| lia].
    apply Z.div_lt_upper_bound; lia.
Qed.

(** ** The log *)

Lemma logs_nil (m : machine) : logs [] m = m.
Proof. destruct m; unfold logs; simpl. by rewrite app_nil_r. Qed.

Lemma logs_logs (e1 e2 : list access) (m : machine) :
  logs e2 (logs e1 m) = logs (e1 ++ e2) m.
Proof. unfold logs; simpl. by rewrite app_assoc. Qed.

Lemma in_bounds_mono (D D' N N' : Z) (e : access) :
  D <= D' -> N <= N' -> in_bounds D N e -> in_bounds D' N' e.
Proof. destruct e; simpl; lia. Qed.

(** ** The inner loop *)

Section InnerLoop.
Variables lag Scale : Z.

Lemma load_lockstep (i : Z) (m1 m2 : machine) :
  InputData m1 = InputData m2 ->
  lockstep (load i m1) (load i m2)
    (fun m1' m2' => m1' = logs [Read i] m1 /\ m2' = logs [Read i] m2).
Proof.
  intros Hin. unfold load. rewrite <- Hin.
  destruct (i <? 0); [by left |].
  destruct (InputData m1 !! Z.to_nat i) as [v |]; [| by left].
  right. by exists v, (log (Read i) m1), (log (Read i) m2).
Qed.

(** One term: both machines fail, or both add the same term and log the
    same two reads. *)
Lemma accumulate_lockstep (i acc : Z) (m1 m2 : machine) :
  InputData m1 = InputData m2 ->
  lockstep (accumulate lag Scale i acc m1) (accumulate lag Scale i acc m2)
    (fun m1' m2' => exists evs, m1' = logs evs m1 /\ m2' = logs evs m2).
Proof.
  intros Hin. unfold accumulate, bind.
  destruct (load_lockstep i m1 m2 Hin)
    as [[-> ->] | (x & m1' & m2' & -> & -> & -> & ->)]; [by left |].
  destruct (load_lockstep (i + lag) (logs [Read i] m1) (logs [Read i] m2) Hin)
    as [[-> ->] | (y & m1' & m2' & -> & -> & -> & ->)]; [by left |].
  right. unfold ret. do 3 eexists. split; [done |]. split; [done |].
  exists [Read i; Read (i + lag)]. by rewrite !logs_logs.
Qed.

Lemma accumulate_loop_lockstep (n : nat) :
  forall (i acc : Z) (m1 m2 : machine),
    InputData m1 = InputData m2 ->
    lockstep (for_range n i (accumulate lag Scale) acc m1)
             (for_range n i (accumulate lag Scale) acc m2)
      (fun m1' m2' => exists evs, m1' = logs evs m1 /\ m2' = logs evs m2).
Proof.
  induction n as [| n IH]; intros i acc m1 m2 Hin.
  - right. exists acc, m1, m2. do 2 (split; [done |]).
    exists []. by rewrite !logs_nil.
  - cbn [for_range]. unfold bind.
    destruct (accumulate_lockstep i acc m1 m2 Hin)
      as [[-> ->] | (a & m1' & m2' & -> & -> & evs & -> & ->)]; [by left |].
    destruct (IH (i + 1) a (logs evs m1) (logs evs m2) Hin)
      as [[-> ->] | (a' & m1' & m2' & -> & -> & evs' & -> & ->)]; [by left |].
    right. do 3 eexists. do 2 (split; [done |]).
    exists (evs ++ evs'). by rewrite !logs_logs.
Qed.

Lemma sample_lookup (input : list Z) (i : Z) (x : Z) :
  input !! Z.to_nat i = Some x -> sample input i = x.
Proof. unfold sample. by intros ->. Qed.

(** With every index in range the loop returns, with the accumulated value,
    and reads below [i + n + lag] only. *)
Lemma accumulate_loop_returns (n : nat) :
  forall (i acc : Z) (m : machine),
    0 <= lag -> 0 <= i ->
    i + Z.of_nat n + lag <= Z.of_nat (length (InputData m)) ->
    exists evs,
      for_range n i (accumulate lag Scale) acc m
      = Some (accumulated (InputData m) lag Scale i n acc, logs evs m)
      /\ Forall (in_bounds (i + Z.of_nat n + lag) 0) evs.
Proof.
  induction n as [| n IH]; intros i acc m Hlag Hi Hlen.
  - exists []. cbn [for_range accumulated]. unfold ret.
    rewrite logs_nil. split; [done | constructor].
  - destruct (lookup_lt_is_Some_2 (InputData m) (Z.to_nat i)) as [x Hx]; [lia |].
    destruct (lookup_lt_is_Some_2 (InputData m) (Z.to_nat (i + lag)))
      as [y Hy]; [lia |].
    assert (Hstep : accumulate lag Scale i acc m
                    = Some (e_s32 (acc + term (InputData m) lag Scale i),
                            logs [Read i; Read (i + lag)] m)).
    { unfold accumulate, bind, load, ret.
      destruct (Z.ltb_spec i 0); [lia |]. rewrite Hx. cbn [InputData log].
      destruct (Z.ltb_spec (i + lag) 0); [lia |]. rewrite Hy.
      unfold term.
      rewrite (sample_lookup _ _ _ Hx), (sample_lookup _ _ _ Hy).
      unfold log, logs; cbn. by rewrite <- app_assoc. }
    cbn [for_range accumulated]. unfold bind. rewrite Hstep.
    destruct (IH (i + 1) (e_s32 (acc + term (InputData m) lag Scale i))
                (logs [Read i; Read (i + lag)] m))
      as (evs & Hrun & Hevs); try done; [lia | cbn; lia |].
    exists ([Read i; Read (i + lag)] ++ evs). cbn [InputData logs] in Hrun.
    rewrite Hrun, logs_logs. split; [done |].
    apply Forall_app. split.
    + repeat constructor; simpl; lia.
    + eapply Forall_impl; [exact Hevs |]. intros e. apply in_bounds_mono; lia.
Qed.

End InnerLoop.

(** ** The loop over the lags *)

Lemma writes_cons (l : nat) (w : Z) (ws : list Z) (evs evs' : list access)
  (m : machine) :
  writes (S l) ws evs' (writes l [w] evs m) = writes l (w :: ws) (evs ++ evs') m.
Proof.
  unfold writes; cbn. rewrite app_assoc. f_equal.
  symmetry. apply list_insert_inserts_lt. lia.
Qed.

Lemma writes_nil (l : nat) (m : machine) : writes l [] [] m = m.
Proof. destruct m; unfold writes; cbn. by rewrite app_nil_r. Qed.

Section LagLoop.
Variables DataSize Scale : Z.

(** One lag: both machines fail, or both store the same coefficient and log
    the same accesses. *)
Lemma correlate_lockstep (lag : Z) (m1 m2 : machine) :
  InputData m1 = InputData m2 ->
  length (AutoCorrData m1) = length (AutoCorrData m2) ->
  lockstep (correlate DataSize Scale lag tt m1)
           (correlate DataSize Scale lag tt m2)
    (fun m1' m2' => exists w evs,
         0 <= lag < Z.of_nat (length (AutoCorrData m1)) /\
         m1' = writes (Z.to_nat lag) [w] evs m1 /\
         m2' = writes (Z.to_nat lag) [w] evs m2).
Proof.
  intros Hin Hlen. unfold correlate, bind, for_loop.
  destruct (accumulate_loop_lockstep lag Scale (Z.to_nat (DataSize - lag - 0))
              0 0 m1 m2 Hin)
    as [[-> ->] | (a & m1' & m2' & -> & -> & evs & -> & ->)]; [by left |].
  unfold store. cbn [AutoCorrData logs]. rewrite <- Hlen.
  destruct (Z.ltb_spec lag 0); [by left |].
  destruct (Z.leb_spec (Z.of_nat (length (AutoCorrData m1))) lag); [by left |].
  right. cbn [orb]. do 3 eexists. do 2 (split; [reflexivity |]).
  exists (e_s16 (Z.shiftr a 16)), (evs ++ [Write lag (e_s16 (Z.shiftr a 16))]).
  split; [lia |]. unfold writes, log, set_output, logs; cbn.
  by rewrite !app_assoc.
Qed.

Lemma correlate_loop_lockstep (n : nat) :
  forall (lag : Z) (m1 m2 : machine),
    InputData m1 = InputData m2 ->
    length (AutoCorrData m1) = length (AutoCorrData m2) ->
    0 <= lag ->
    lockstep (for_range n lag (correlate DataSize Scale) tt m1)
             (for_range n lag (correlate DataSize Scale) tt m2)
      (fun m1' m2' => exists ws evs,
           length ws = n /\
           (n <> O -> lag + Z.of_nat n <= Z.of_nat (length (AutoCorrData m1))) /\
           m1' = writes (Z.to_nat lag) ws evs m1 /\
           m2' = writes (Z.to_nat lag) ws evs m2).
Proof.
  induction n as [| n IH]; intros lag m1 m2 Hin Hlen Hlag.
  - right. exists tt, m1, m2. do 2 (split; [done |]).
    exists [], []. by rewrite !writes_nil.
  - cbn [for_range]. unfold bind.
    destruct (correlate_lockstep lag m1 m2 Hin Hlen)
      as [[-> ->] | ([] & m1' & m2' & -> & -> & w & evs & Hw & -> & ->)];
      [by left |].
    destruct (IH (lag + 1) (writes (Z.to_nat lag) [w] evs m1)
                (writes (Z.to_nat lag) [w] evs m2))
      as [[-> ->] | (a' & m1' & m2' & -> & -> & ws & evs' & Hws & Hfit & -> & ->)];
      [done | cbn; by rewrite !length_insert | lia | by left |].
    right. do 3 eexists. do 2 (split; [reflexivity |]).
    exists (w :: ws), (evs ++ evs').
    replace (Z.to_nat (lag + 1)) with (S (Z.to_nat lag)) by lia.
    rewrite !writes_cons. split; [cbn; by rewrite Hws |]. split; [| done].
    intros _. cbn [writes AutoCorrData list_inserts] in Hfit.
    rewrite length_insert in Hfit. destruct n; lia.
Qed.

(** On buffers that are large enough the loop over [n] lags from [lag] on
    returns, stores the values of these lags and stays in bounds. *)
Lemma correlate_loop_returns (n : nat) :
  forall (lag : Z) (m : machine),
    0 <= lag ->
    DataSize <= Z.of_nat (length (InputData m)) ->
    lag + Z.of_nat n <= DataSize ->
    lag + Z.of_nat n <= Z.of_nat (length (AutoCorrData m)) ->
    exists evs,
      for_range n lag (correlate DataSize Scale) tt m
      = Some (tt, writes (Z.to_nat lag)
                    (stored (InputData m) DataSize Scale
                       <$> seqZ lag (Z.of_nat n)) evs m)
      /\ Forall (in_bounds DataSize (lag + Z.of_nat n)) evs.
Proof.
  induction n as [| n IH]; intros lag m Hlag Hin Hdata Hout.
  - exists []. cbn. by rewrite writes_nil.
  - assert (Hstep : exists evs,
               correlate DataSize Scale lag tt m
               = Some (tt, writes (Z.to_nat lag)
                             [stored (InputData m) DataSize Scale lag] evs m)
               /\ Forall (in_bounds DataSize (lag + 1)) evs).
    { unfold correlate, bind, for_loop.
      destruct (accumulate_loop_returns lag Scale (Z.to_nat (DataSize - lag - 0))
                  0 0 m) as (evs & -> & Hevs); try done; [lia |].
      unfold store. cbn [AutoCorrData logs].
      destruct (Z.ltb_spec lag 0); [lia |].
      destruct (Z.leb_spec (Z.of_nat (length (AutoCorrData m))) lag); [lia |].
      cbn [orb].
      exists (evs ++ [Write lag (stored (InputData m) DataSize Scale lag)]).
      unfold stored.
      replace (Z.to_nat (DataSize - lag - 0)) with (Z.to_nat (DataSize - lag)) by lia.
      split.
      - unfold writes, log, set_output, logs; cbn. by rewrite !app_assoc.
      - apply Forall_app. split.
        + eapply Forall_impl; [exact Hevs |]. intros e.
          apply in_bounds_mono; lia.
        + repeat constructor; simpl; lia. }
    destruct Hstep as (evs & Hstep & Hevs).
    cbn [for_range]. unfold bind. rewrite Hstep.
    destruct (IH (lag + 1) (writes (Z.to_nat lag)
                              [stored (InputData m) DataSize Scale lag] evs m))
      as (evs' & Hrun & Hevs'); try done; try lia.
    { cbn. rewrite length_insert. lia. }
    exists (evs ++ evs'). rewrite Hrun. cbn [writes InputData].
    replace (Z.to_nat (lag + 1)) with (S (Z.to_nat lag)) by lia.
    fold (writes (Z.to_nat lag) [stored (InputData m) DataSize Scale lag] evs m).
    rewrite writes_cons. split.
    + rewrite (seqZ_cons lag (Z.of_nat (S n))) by lia.
      replace (Z.pred (Z.of_nat (S n))) with (Z.of_nat n) by lia.
      by replace (Z.succ lag) with (lag + 1) by lia.
    + apply Forall_app. split.
      * eapply Forall_impl; [exact Hevs |]. intros e. apply in_bounds_mono; lia.
      * eapply Forall_impl; [exact Hevs' |]. intros e. apply in_bounds_mono; lia.
Qed.

End LagLoop.

(** ** From the kernel's arithmetic to the reference quantities *)

Lemma sample_is_s16 (input : list Z) (i : Z) :
  Forall is_s16 input -> is_s16 (sample input i).
Proof.
  intros Hs16. unfold sample.
  destruct (input !! Z.to_nat i) as [x |] eqn:Hx; cbn.
  - eapply Forall_lookup_1; eauto.
  - unfold is_s16. lia.
Qed.

Lemma shift_right_small (x n : Z) :
  0 <= n <= 31 -> shift_right x n = x / 2 ^ n.
Proof.
  intros Hn. unfold shift_right. rewrite Z.mod_small by lia.
  apply Z.shiftr_div_pow2. lia.
Qed.

Lemma shift_right_mod (x n : Z) : shift_right x (n mod 32) = shift_right x n.
Proof. unfold shift_right. by rewrite Z.mod_mod. Qed.

Lemma term_scaled_product (input : list Z) (lag Scale i : Z) :
  Forall is_s16 input -> 0 <= Scale <= 31 ->
  term input lag Scale i = scaled_product input lag Scale i.
Proof.
  intros Hs16 HScale. unfold term, scaled_product.
  rewrite widened_product by auto using sample_is_s16.
  by apply shift_right_small.
Qed.

Lemma accumulated_sum (input : list Z) (lag Scale : Z) (n : nat) :
  Forall is_s16 input -> 0 <= Scale <= 31 ->
  forall (i acc : Z),
    is_s32 acc ->
    accumulated input lag Scale i n acc
    = e_s32 (acc + sum_range (scaled_product input lag Scale) i n).
Proof.
  intros Hs16 HScale. induction n as [| n IH]; intros i acc Hacc.
  - cbn. by rewrite Z.add_0_r, e_s32_small.
  - cbn [accumulated sum_range]. rewrite IH by apply e_s32_range.
    rewrite e_s32_add_l, term_scaled_product by done. f_equal. lia.
Qed.

Lemma stored_coefficient (input : list Z) (DataSize Scale L : Z) :
  Forall is_s16 input -> 0 <= Scale <= 31 ->
  stored input DataSize Scale L = coefficient input DataSize Scale L.
Proof.
  intros Hs16 HScale. unfold stored, coefficient, lag_sum.
  rewrite accumulated_sum by (done || (unfold is_s32; lia)).
  by rewrite Z.shiftr_div_pow2 by lia.
Qed.

(** Only the scale modulo 32 matters. *)
Lemma accumulated_mod (input : list Z) (lag Scale : Z) (n : nat) :
  forall i acc,
    accumulated input lag (Scale mod 32) i n acc
    = accumulated input lag Scale i n acc.
Proof.
  induction n as [| n IH]; intros i acc; cbn [accumulated]; [done |].
  unfold term. by rewrite shift_right_mod, IH.
Qed.

Lemma stored_mod (input : list Z) (DataSize Scale L : Z) :
  stored input DataSize (Scale mod 32) L = stored input DataSize Scale L.
Proof. unfold stored. by rewrite accumulated_mod. Qed.

Lemma stored_coefficient_mod (input : list Z) (DataSize Scale L : Z) :
  Forall is_s16 input ->
  stored input DataSize Scale L = coefficient input DataSize (Scale mod 32) L.
Proof.
  intros Hs16. rewrite <- stored_mod. apply stored_coefficient; [done |].
  pose proof (Z.mod_pos_bound Scale 32). lia.
Qed.

(** ** The whole kernel *)

(** A call on fitting buffers returns; it has overwritten the first
    [NumberOfLags] output cells with the stored values and touched cells in
    bounds only. *)
Lemma fxpAutoCorrelation_returns (m : machine) (DataSize NumberOfLags Scale : Z) :
  buffers_fit m DataSize NumberOfLags ->
  exists evs,
    fxpAutoCorrelation DataSize NumberOfLags Scale m
    = Some (tt, writes 0 (stored (InputData m) DataSize Scale
                            <$> seqZ 0 NumberOfLags) evs m)
    /\ Forall (in_bounds DataSize NumberOfLags) evs.
Proof.
  intros (Hin & Hout & Hlags). unfold fxpAutoCorrelation, for_loop.
  destruct (correlate_loop_returns DataSize Scale (Z.to_nat (NumberOfLags - 0)) 0 m)
    as (evs & Hrun & Hevs); try lia.
  exists evs. rewrite Hrun.
  replace (Z.of_nat (Z.to_nat (NumberOfLags - 0))) with NumberOfLags in * by lia.
  by replace (0 + NumberOfLags) with NumberOfLags in Hevs by lia.
Qed.

Lemma lookup_stored (input : list Z) (DataSize Scale N L : Z) :
  0 <= L < N ->
  (stored input DataSize Scale <$> seqZ 0 N) !! Z.to_nat L
  = Some (stored input DataSize Scale L).
Proof.
  intros HL. rewrite list_lookup_fmap, lookup_seqZ_lt by lia.
  cbn. f_equal. f_equal. lia.
Qed.

Lemma lookup_writes_0 (ws : list Z) (evs : list access) (m : machine) (j : nat) :
  (length ws <= length (AutoCorrData m))%nat ->
  (j < length ws)%nat ->
  AutoCorrData (writes 0 ws evs m) !! j = ws !! j.
Proof.
  intros Hfit Hj. cbn. rewrite list_lookup_inserts by lia. f_equal. lia.
Qed.

Lemma take_writes_0 (ws : list Z) (evs : list access) (m : machine) :
  (length ws <= length (AutoCorrData m))%nat ->
  take (length ws) (AutoCorrData (writes 0 ws evs m)) = ws.
Proof.
  intros Hfit. cbn.
  rewrite <- (take_drop (length ws) (AutoCorrData m)) at 1.
  rewrite list_inserts_0_r by (rewrite length_take; lia).
  by rewrite take_app_length.
Qed.

Lemma sum_range_ext (f g : Z -> Z) (n : nat) :
  (forall i, f i = g i) -> forall i, sum_range f i n = sum_range g i n.
Proof.
  intros Hfg. induction n as [| n IH]; intros i; cbn; [done |].
  by rewrite Hfg, IH.
Qed.

Lemma coefficient_unscaled (input : list Z) (DataSize L : Z) :
  coefficient input DataSize 0 L = reference_coefficient input DataSize L.
Proof.
  unfold coefficient, reference_coefficient, lag_sum, unshifted_sum.
  do 3 f_equal. apply sum_range_ext. intros i. unfold scaled_product.
  apply Z.div_1_r.
Qed.

Lemma sample_zero (input : list Z) (i : Z) :
  Forall (fun x => x = 0) input -> sample input i = 0.
Proof.
  intros Hzero. unfold sample.
  destruct (input !! Z.to_nat i) as [x |] eqn:Hx; cbn; [| done].
  apply (Forall_lookup_1 _ _ _ _ Hzero Hx).
Qed.

Lemma accumulated_zero (input : list Z) (lag Scale : Z) (n : nat) :
  Forall (fun x => x = 0) input ->
  forall i, accumulated input lag Scale i n 0 = 0.
Proof.
  intros Hzero. induction n as [| n IH]; intros i; cbn [accumulated]; [done |].
  unfold term. rewrite !sample_zero by done.
  change (e_s32 (e_s32 0 * e_s32 0)) with 0. unfold shift_right.
  rewrite Z.shiftr_0_l.
  change (e_s32 (0 + 0)) with 0. apply IH.
Qed.

Lemma stored_zero (input : list Z) (DataSize Scale L : Z) :
  Forall (fun x => x = 0) input -> stored input DataSize Scale L = 0.
Proof. intros Hzero. unfold stored. by rewrite accumulated_zero. Qed.

(** On a valid call, output cell [L] ends up holding the reference
    coefficient of lag [L]. *)
Lemma fxpAutoCorrelation_cell
  (m : machine) (DataSize NumberOfLags Scale L : Z) :
  valid_call m DataSize NumberOfLags Scale ->
  Scale <= 31 ->
  0 <= L < NumberOfLags ->
  exists m',
    fxpAutoCorrelation DataSize NumberOfLags Scale m = Some (tt, m') /\
    AutoCorrData m' !! Z.to_nat L
    = Some (coefficient (InputData m) DataSize Scale L).
Proof.
  intros (Hfit & Hs16 & HScale) HScale' HL.
  destruct (fxpAutoCorrelation_returns m DataSize NumberOfLags Scale Hfit)
    as (evs & Hrun & _).
  destruct Hfit as (_ & Hout & Hlags).
  eexists. split; [exact Hrun |].
  rewrite lookup_writes_0 by (rewrite length_fmap, length_seqZ; lia).
  rewrite lookup_stored by done. f_equal. by apply stored_coefficient.
Qed.

Lemma fxpAutoCorrelation_lockstep
  (m1 m2 : machine) (DataSize NumberOfLags Scale : Z) :
  InputData m1 = InputData m2 ->
  length (AutoCorrData m1) = length (AutoCorrData m2) ->
  lockstep (fxpAutoCorrelation DataSize NumberOfLags Scale m1)
           (fxpAutoCorrelation DataSize NumberOfLags Scale m2)
    (fun m1' m2' => exists ws evs,
         length ws = Z.to_nat NumberOfLags /\
         (length ws <= length (AutoCorrData m1))%nat /\
         m1' = writes 0 ws evs m1 /\
         m2' = writes 0 ws evs m2).
Proof.
  intros Hin Hlen. unfold fxpAutoCorrelation, for_loop.
  destruct (correlate_loop_lockstep DataSize Scale (Z.to_nat (NumberOfLags - 0))
              0 m1 m2 Hin Hlen ltac:(lia))
    as [Hnone | (a & m1' & m2' & H1 & H2 & ws & evs & Hws & Hfit & -> & ->)];
    [by left |].
  right. exists a. do 2 eexists. do 2 (split; [eassumption |]).
  exists ws, evs. change (Z.to_nat 0) with 0%nat.
  split; [lia |]. split; [| done].
  destruct (Z.to_nat (NumberOfLags - 0)) eqn:Hn; [| lia].
  rewrite Hws. lia.
Qed.

Lemma list_inserts_idemp (ws l : list Z) :
  (length ws <= length l)%nat ->
  list_inserts 0 ws (list_inserts 0 ws l) = list_inserts 0 ws l.
Proof.
  intros Hfit. apply list_eq. intros j.
  destruct (decide (j < length ws)%nat).
  - rewrite !list_lookup_inserts; rewrite ?length_inserts; (done || lia).
  - rewrite list_lookup_inserts_ge by lia. done.
Qed.

(** ** Lag 0 against the other lags *)

Lemma sum_range_le (f g : Z -> Z) (n : nat) :
  (forall i, f i <= g i) -> forall i, sum_range f i n <= sum_range g i n.
Proof.
  intros Hfg. induction n as [| n IH]; intros i; cbn; [done |].
  specialize (Hfg i). specialize (IH (i + 1)). lia.
Qed.




Lemma sum_range_const (c : Z) (n : nat) :
  forall i, sum_range (fun _ => c) i n = c * Z.of_nat n.
Proof.
  induction n as [| n IH]; intros i; cbn [sum_range]; [lia |]. rewrite IH. lia.
Qed.

Lemma sum_range_shift (f : Z -> Z) (k : Z) (n : nat) :
  forall i, sum_range (fun j => f (j + k)) i n = sum_range f (i + k) n.
Proof.
  induction n as [| n IH]; intros i; cbn; [done |]. rewrite IH.
  do 2 f_equal. lia.
Qed.

Lemma sum_range_app (f : Z -> Z) (n k : nat) :
  forall i,
    sum_range f i (n + k) = sum_range f i n + sum_range f (i + Z.of_nat n) k.
Proof.
  induction n as [| n IH]; intros i.
  - cbn. by rewrite Z.add_0_r.
  - change (S n + k)%nat with (S (n + k)). cbn [sum_range]. rewrite IH.
    replace (i + 1 + Z.of_nat n) with (i + Z.of_nat (S n)) by lia. lia.
Qed.

(** A sum of terms [f i], each bounded by the two non-negative values
    [g i] and [g (i + L)] it pairs, against the sum of all [g]. *)
Section PairSums.
Variables (f g : Z -> Z) (c L : Z).
Hypothesis g_nonneg : forall i, 0 <= g i.
Hypothesis pair_bound : forall i, 2 * f i <= g i + g (i + L) + c.




End PairSums.









Lemma coefficient_fits (input : list Z) (dataSize scale L : Z) :
  is_s32 (lag_sum input dataSize L scale) ->
  coefficient input dataSize scale L = lag_sum input dataSize L scale / 2 ^ 16.
Proof.
  intros Hfits. unfold coefficient.
  rewrite e_s32_small by done. by apply e_s16_small, msw_fits.
Qed.

(** * The claims *)

(** C1 (amended). On an input of at least [DataSize] samples, with
    [0 <= NumberOfLags < DataSize], [0 <= Scale <= 31] and
    [0 <= L < NumberOfLags], the call returns and output cell [L] holds the
    16-bit truncation of the 32-bit accumulator shifted right by 16, the
    accumulator being the sum over [i] in [0, DataSize - L) of the products
    [input[i] * input[i + L]] floor-divided by [2 ^ Scale]. *)
Theorem fxpAutoCorrelation_coefficient
  (m : machine) (DataSize NumberOfLags Scale L : Z) :
  valid_call m DataSize NumberOfLags Scale ->
  Scale <= 31 ->
  0 <= L < NumberOfLags ->
  exists m',
    fxpAutoCorrelation DataSize NumberOfLags Scale m = Some (tt, m') /\
    AutoCorrData m' !! Z.to_nat L
    = Some (coefficient (InputData m) DataSize Scale L).
Proof. apply fxpAutoCorrelation_cell. Qed.

Lemma fxpAutoCorrelation_coefficient_witness :
  valid_call (Machine [300; -200; 150; -32768; 32767] [9; 9; 9] []) 5 3 2 /\
  exists m',
    fxpAutoCorrelation 5 3 2 (Machine [300; -200; 150; -32768; 32767] [9; 9; 9] [])
    = Some (tt, m') /\
    AutoCorrData m' !! Z.to_nat 1
    = Some (coefficient [300; -200; 150; -32768; 32767] 5 2 1).
Proof.
  assert (Hvalid : valid_call
                     (Machine [300; -200; 150; -32768; 32767] [9; 9; 9] []) 5 3 2).
  { unfold valid_call, buffers_fit; cbn.
    repeat split; try lia; repeat constructor; unfold is_s16; lia. }
  split; [exact Hvalid |].
  apply (fxpAutoCorrelation_coefficient
           (Machine [300; -200; 150; -32768; 32767] [9; 9; 9] []) 5 3 2 1 Hvalid);
    lia.
Defined.

(** C1, as stated for every [Scale >= 0], fails at [Scale = 32]: the call
    on [20000, -20000, 20000, -20000] with 3 lags is valid, the shift count
    32 leaves the products as they are, and the call leaves
    [24414, -18311, 12207], where floor division by [2 ^ 32] would give
    [0, -1, 0]. *)
Lemma coefficient_fails_at_scale_32 :
  exists m',
    valid_call (Machine [20000; -20000; 20000; -20000] [0; 0; 0] []) 4 3 32 /\
    run [20000; -20000; 20000; -20000] [0; 0; 0] 4 3 32 = Some (tt, m') /\
    AutoCorrData m' = [24414; -18311; 12207] /\
    (coefficient [20000; -20000; 20000; -20000] 4 32 <$> [0; 1; 2]) = [0; -1; 0] /\
    AutoCorrData m' !! Z.to_nat 0
    <> Some (coefficient [20000; -20000; 20000; -20000] 4 32 0).
Proof.
  eexists. split; [| split; [reflexivity |]].
  - unfold valid_call, buffers_fit; cbn.
    repeat split; try lia; repeat constructor; unfold is_s16; lia.
  - split; [reflexivity |]. split; [reflexivity |]. discriminate.
Qed.

(** C2. On the input [4, 2, 1, -3, 5] with [DataSize = 5],
    [NumberOfLags = 3] and [Scale = 0] the kernel produces [0, -1, 0]: the
    accumulators are 55, -8 and 3, and their most significant words are
    0, -1 and 0. *)
Theorem fxpAutoCorrelation_scenario (a b c : Z) :
  (exists m',
      run [4; 2; 1; -3; 5] [a; b; c] 5 3 0 = Some (tt, m') /\
      AutoCorrData m' = [0; -1; 0]) /\
  accumulated [4; 2; 1; -3; 5] 0 0 0 5 0 = 55 /\
  accumulated [4; 2; 1; -3; 5] 1 0 0 4 0 = -8 /\
  accumulated [4; 2; 1; -3; 5] 2 0 0 3 0 = 3 /\
  e_s16 (Z.shiftr 55 16) = 0 /\
  e_s16 (Z.shiftr (-8) 16) = -1 /\
  e_s16 (Z.shiftr 3 16) = 0.
Proof.
  split; [| by vm_compute].
  eexists. split; [vm_compute; reflexivity | reflexivity].
Qed.




(** The side conditions and the slack of the amended C3 are needed.  When
    the sum of squares wraps around, lag 0 can vanish while lag 1 does
    not. *)
Example lag0_wraps :
  exists m',
    run [-32768; -32768; -32768; -32768] [0; 0] 4 2 0 = Some (tt, m') /\
    AutoCorrData m' = [0; -16384].
Proof. eexists. split; [vm_compute; reflexivity | reflexivity]. Qed.

(** With a positive scale the per-term floor can favour lag 1: on 700
    samples alternating between 9923 and 9975 and scale 20, the terms of
    lag 0 are 93 and 94 in turn, those of lag 1 are all 94. *)
Example lag0_scaled_above :
  exists m',
    run (concat (replicate 350 [9923; 9975])) [0; 0] 700 2 20 = Some (tt, m') /\
    AutoCorrData m' = [0; 1].
Proof. eexists. split; [vm_compute; reflexivity | reflexivity]. Qed.

(** And it can push lag 1 two units below: on 600 samples alternating
    between 237 and -237 and scale 9, the terms of lag 0 are all 109, those
    of lag 1 all -110. *)
Example lag0_scaled_below :
  exists m',
    run (concat (replicate 300 [237; -237])) [0; 0] 600 2 9 = Some (tt, m') /\
    AutoCorrData m' = [0; -2].
Proof. eexists. split; [vm_compute; reflexivity | reflexivity]. Qed.

(** C4. If every input sample is zero then, for [0 <= NumberOfLags < DataSize]
    and [Scale >= 0], the call returns and each of the [NumberOfLags]
    coefficients is zero. *)
Theorem fxpAutoCorrelation_zero_input
  (m : machine) (DataSize NumberOfLags Scale : Z) :
  Forall (fun x => x = 0) (InputData m) ->
  buffers_fit m DataSize NumberOfLags ->
  0 <= Scale ->
  exists m',
    fxpAutoCorrelation DataSize NumberOfLags Scale m = Some (tt, m') /\
    forall L, 0 <= L < NumberOfLags -> AutoCorrData m' !! Z.to_nat L = Some 0.
Proof.
  intros Hzero Hfit _.
  destruct (fxpAutoCorrelation_returns m DataSize NumberOfLags Scale Hfit)
    as (evs & Hrun & _).
  destruct Hfit as (_ & Hout & Hlags).
  eexists. split; [exact Hrun |]. intros L HL.
  rewrite lookup_writes_0 by (rewrite length_fmap, length_seqZ; lia).
  rewrite lookup_stored by done. f_equal. by apply stored_zero.
Qed.

Lemma fxpAutoCorrelation_zero_input_witness :
  exists m',
    fxpAutoCorrelation 4 3 5 (Machine [0; 0; 0; 0] [7; 8; 9] []) = Some (tt, m') /\
    forall L, 0 <= L < 3 -> AutoCorrData m' !! Z.to_nat L = Some 0.
Proof.
  apply (fxpAutoCorrelation_zero_input (Machine [0; 0; 0; 0] [7; 8; 9] []) 4 3 5).
  - repeat constructor.
  - unfold buffers_fit; cbn. lia.
  - lia.
Defined.

(** C5. For a valid call with [Scale = 0] the coefficients written by the
    kernel are those of the reference variant, which sums the unshifted
    32-bit products before the 16-bit extraction. *)
Theorem fxpAutoCorrelation_unscaled (m : machine) (DataSize NumberOfLags : Z) :
  valid_call m DataSize NumberOfLags 0 ->
  exists m',
    fxpAutoCorrelation DataSize NumberOfLags 0 m = Some (tt, m') /\
    take (Z.to_nat NumberOfLags) (AutoCorrData m')
    = reference_output (InputData m) DataSize NumberOfLags.
Proof.
  intros (Hfit & Hs16 & HScale).
  destruct (fxpAutoCorrelation_returns m DataSize NumberOfLags 0 Hfit)
    as (evs & Hrun & _).
  destruct Hfit as (_ & Hout & Hlags).
  eexists. split; [exact Hrun |].
  assert (Hlen : length (stored (InputData m) DataSize 0 <$> seqZ 0 NumberOfLags)
                 = Z.to_nat NumberOfLags)
    by (by rewrite length_fmap, length_seqZ).
  rewrite <- Hlen at 1. rewrite take_writes_0 by lia.
  unfold reference_output. apply list_fmap_ext. intros _ L _.
  rewrite stored_coefficient by (done || lia). apply coefficient_unscaled.
Qed.

Lemma fxpAutoCorrelation_unscaled_witness :
  exists m',
    fxpAutoCorrelation 4 2 0 (Machine [1000; -2000; 3000; 32767] [5; 5] [])
    = Some (tt, m') /\
    take (Z.to_nat 2) (AutoCorrData m')
    = reference_output [1000; -2000; 3000; 32767] 4 2.
Proof.
  apply (fxpAutoCorrelation_unscaled (Machine [1000; -2000; 3000; 32767] [5; 5] []) 4 2).
  unfold valid_call, buffers_fit; cbn.
  repeat split; try lia; repeat constructor; unfold is_s16; lia.
Defined.

(** C6. Two invocations on the same input samples, [DataSize],
    [NumberOfLags] and [Scale], with output buffers of the same size but
    arbitrary prior contents, behave alike: both go wrong, or both return and
    leave the same [NumberOfLags] coefficients, element for element. *)
Theorem fxpAutoCorrelation_deterministic
  (m1 m2 : machine) (DataSize NumberOfLags Scale : Z) :
  InputData m1 = InputData m2 ->
  length (AutoCorrData m1) = length (AutoCorrData m2) ->
  (fxpAutoCorrelation DataSize NumberOfLags Scale m1 = None /\
   fxpAutoCorrelation DataSize NumberOfLags Scale m2 = None) \/
  (exists m1' m2',
      fxpAutoCorrelation DataSize NumberOfLags Scale m1 = Some (tt, m1') /\
      fxpAutoCorrelation DataSize NumberOfLags Scale m2 = Some (tt, m2') /\
      take (Z.to_nat NumberOfLags) (AutoCorrData m1')
      = take (Z.to_nat NumberOfLags) (AutoCorrData m2')).
Proof.
  intros Hin Hlen.
  destruct (fxpAutoCorrelation_lockstep m1 m2 DataSize NumberOfLags Scale Hin Hlen)
    as [Hnone | ([] & m1' & m2' & H1 & H2 & ws & evs & Hws & Hfit & -> & ->)];
    [by left |].
  right. exists (writes 0 ws evs m1), (writes 0 ws evs m2).
  do 2 (split; [done |]).
  rewrite <- Hws, !take_writes_0; (done || lia).
Qed.

Lemma fxpAutoCorrelation_deterministic_witness :
  (fxpAutoCorrelation 3 2 1 (Machine [100; -200; 300] [0; 0] []) = None /\
   fxpAutoCorrelation 3 2 1 (Machine [100; -200; 300] [41; 42] [Read 7]) = None) \/
  (exists m1' m2',
      fxpAutoCorrelation 3 2 1 (Machine [100; -200; 300] [0; 0] [])
      = Some (tt, m1') /\
      fxpAutoCorrelation 3 2 1 (Machine [100; -200; 300] [41; 42] [Read 7])
      = Some (tt, m2') /\
      take (Z.to_nat 2) (AutoCorrData m1') = take (Z.to_nat 2) (AutoCorrData m2')).
Proof.
  apply (fxpAutoCorrelation_deterministic
           (Machine [100; -200; 300] [0; 0] [])
           (Machine [100; -200; 300] [41; 42] [Read 7]) 3 2 1);
    reflexivity.
Defined.

(** C7. When [0 <= NumberOfLags < DataSize], the input holds at least
    [DataSize] cells and the output at least [NumberOfLags] cells, no access
    goes wrong: the call returns, each read of [InputData] it performs uses
    an index in [0, DataSize) and each write of [AutoCorrData] an index in
    [0, NumberOfLags). *)
Theorem fxpAutoCorrelation_in_bounds
  (m : machine) (DataSize NumberOfLags Scale : Z) :
  buffers_fit m DataSize NumberOfLags ->
  exists m' evs,
    fxpAutoCorrelation DataSize NumberOfLags Scale m = Some (tt, m') /\
    accesses m' = accesses m ++ evs /\
    Forall (in_bounds DataSize NumberOfLags) evs.
Proof.
  intros Hfit.
  destruct (fxpAutoCorrelation_returns m DataSize NumberOfLags Scale Hfit)
    as (evs & Hrun & Hevs).
  eexists _, evs. split; [exact Hrun |]. by split.
Qed.

Lemma fxpAutoCorrelation_in_bounds_witness :
  exists m' evs,
    fxpAutoCorrelation 3 2 1 (Machine [5; -6; 7] [0; 0] []) = Some (tt, m') /\
    accesses m' = [] ++ evs /\
    Forall (in_bounds 3 2) evs.
Proof.
  apply (fxpAutoCorrelation_in_bounds (Machine [5; -6; 7] [0; 0] []) 3 2 1).
  unfold buffers_fit; cbn. lia.
Defined.

(** C8. A call that returns has changed nothing but the first
    [NumberOfLags] output cells: the input is as before, the output has its
    length and its cells from [NumberOfLags] on as before; and nothing is
    carried over to a later call, which returns with the very same input and
    output. *)
Theorem fxpAutoCorrelation_frame
  (m m' : machine) (DataSize NumberOfLags Scale : Z) :
  fxpAutoCorrelation DataSize NumberOfLags Scale m = Some (tt, m') ->
  InputData m' = InputData m /\
  length (AutoCorrData m') = length (AutoCorrData m) /\
  (forall j : nat,
      NumberOfLags <= Z.of_nat j -> AutoCorrData m' !! j = AutoCorrData m !! j) /\
  (exists m'',
      fxpAutoCorrelation DataSize NumberOfLags Scale m' = Some (tt, m'') /\
      InputData m'' = InputData m' /\
      AutoCorrData m'' = AutoCorrData m').
Proof.
  intros Hrun.
  destruct (fxpAutoCorrelation_lockstep m m DataSize NumberOfLags Scale eq_refl eq_refl)
    as [[Hnone _] | ([] & m1 & _ & H1 & _ & ws & evs & Hws & Hfit & -> & _)];
    [congruence |].
  assert (Hm' : m' = writes 0 ws evs m) by congruence.
  split; [by rewrite Hm' |].
  split; [rewrite Hm'; apply length_inserts |]. split.
  - intros j Hj. rewrite Hm'. cbn. apply list_lookup_inserts_ge. lia.
  - clear H1.
    destruct (fxpAutoCorrelation_lockstep m m' DataSize NumberOfLags Scale)
      as [[Hnone _] | ([] & m1 & m2 & H1 & H2 & ws' & evs' & _ & Hfit' & -> & ->)];
      [by rewrite Hm' | rewrite Hm'; cbn; by rewrite length_inserts | congruence |].
    exists (writes 0 ws' evs' m'). split; [done |]. split; [done |].
    assert (m' = writes 0 ws' evs' m) as -> by congruence.
    cbn. by apply list_inserts_idemp.
Qed.

Lemma fxpAutoCorrelation_frame_witness :
  InputData (Machine [3; -4; 5] [0; -1; 77; 78]
               [Read 0; Read 0; Read 1; Read 1; Read 2; Read 2; Write 0 0;
                Read 0; Read 1; Read 1; Read 2; Write 1 (-1)])
  = InputData (Machine [3; -4; 5] [75; 76; 77; 78] []) /\
  length (AutoCorrData (Machine [3; -4; 5] [0; -1; 77; 78]
               [Read 0; Read 0; Read 1; Read 1; Read 2; Read 2; Write 0 0;
                Read 0; Read 1; Read 1; Read 2; Write 1 (-1)]))
  = length (AutoCorrData (Machine [3; -4; 5] [75; 76; 77; 78] [])) /\
  (forall j : nat,
      2 <= Z.of_nat j ->
      AutoCorrData (Machine [3; -4; 5] [0; -1; 77; 78]
               [Read 0; Read 0; Read 1; Read 1; Read 2; Read 2; Write 0 0;
                Read 0; Read 1; Read 1; Read 2; Write 1 (-1)]) !! j
      = AutoCorrData (Machine [3; -4; 5] [75; 76; 77; 78] []) !! j) /\
  (exists m'',
      fxpAutoCorrelation 3 2 0
        (Machine [3; -4; 5] [0; -1; 77; 78]
               [Read 0; Read 0; Read 1; Read 1; Read 2; Read 2; Write 0 0;
                Read 0; Read 1; Read 1; Read 2; Write 1 (-1)])
      = Some (tt, m'') /\
      InputData m'' = InputData (Machine [3; -4; 5] [0; -1; 77; 78]
               [Read 0; Read 0; Read 1; Read 1; Read 2; Read 2; Write 0 0;
                Read 0; Read 1; Read 1; Read 2; Write 1 (-1)]) /\
      AutoCorrData m'' = AutoCorrData (Machine [3; -4; 5] [0; -1; 77; 78]
               [Read 0; Read 0; Read 1; Read 1; Read 2; Read 2; Write 0 0;
                Read 0; Read 1; Read 1; Read 2; Write 1 (-1)])).
Proof.
  apply (fxpAutoCorrelation_frame (Machine [3; -4; 5] [75; 76; 77; 78] [])).
  reflexivity.
Defined.

(** C9. With [NumberOfLags <= 0] the loop body never runs: the call returns
    the machine as it was, so nothing was read, nothing written and the
    output sequence is unchanged. *)
Theorem fxpAutoCorrelation_no_lags (m : machine) (DataSize NumberOfLags Scale : Z) :
  NumberOfLags <= 0 ->
  fxpAutoCorrelation DataSize NumberOfLags Scale m = Some (tt, m).
Proof.
  intros Hlags. unfold fxpAutoCorrelation, for_loop.
  by replace (Z.to_nat (NumberOfLags - 0)) with O by lia.
Qed.

Lemma fxpAutoCorrelation_no_lags_witness :
  fxpAutoCorrelation 2 (-1) 3 (Machine [8; 9] [1; 2] [])
  = Some (tt, Machine [8; 9] [1; 2] []).
Proof. apply fxpAutoCorrelation_no_lags. lia. Defined.

(** C10. For [0 <= n <= m < DataSize], the call with [m] lags and the call
    with [n] lags on the same input samples, each with an output buffer of
    its own that holds its lags, both return, and the first [n] coefficients
    of the former are the [n] coefficients of the latter. *)
Theorem fxpAutoCorrelation_prefix
  (mach_m mach_n : machine) (DataSize Scale n m : Z) :
  0 <= n <= m ->
  InputData mach_n = InputData mach_m ->
  buffers_fit mach_m DataSize m ->
  n <= Z.of_nat (length (AutoCorrData mach_n)) ->
  exists r_m r_n,
    fxpAutoCorrelation DataSize m Scale mach_m = Some (tt, r_m) /\
    fxpAutoCorrelation DataSize n Scale mach_n = Some (tt, r_n) /\
    take (Z.to_nat n) (AutoCorrData r_m) = take (Z.to_nat n) (AutoCorrData r_n).
Proof.
  intros Hnm Hinput Hfit Hout_n.
  assert (Hfit' : buffers_fit mach_n DataSize n)
    by (unfold buffers_fit in *; rewrite Hinput; lia).
  destruct (fxpAutoCorrelation_returns mach_m DataSize m Scale Hfit)
    as (evs & Hm & _).
  destruct (fxpAutoCorrelation_returns mach_n DataSize n Scale Hfit')
    as (evs' & Hn & _).
  do 2 eexists. do 2 (split; [eassumption |]).
  destruct Hfit as (_ & Hout & _).
  apply list_eq. intros j. rewrite !lookup_take.
  case_decide; [| done].
  rewrite !lookup_writes_0 by (rewrite length_fmap, length_seqZ; lia).
  rewrite <- (Nat2Z.id j), !lookup_stored by lia. by rewrite Hinput.
Qed.

Lemma fxpAutoCorrelation_prefix_witness :
  exists r_m r_n,
    fxpAutoCorrelation 4 3 1 (Machine [10; -20; 30; -40] [0; 0; 0] [])
    = Some (tt, r_m) /\
    fxpAutoCorrelation 4 1 1 (Machine [10; -20; 30; -40] [77] [Read 5])
    = Some (tt, r_n) /\
    take (Z.to_nat 1) (AutoCorrData r_m) = take (Z.to_nat 1) (AutoCorrData r_n).
Proof.
  apply (fxpAutoCorrelation_prefix
           (Machine [10; -20; 30; -40] [0; 0; 0] [])
           (Machine [10; -20; 30; -40] [77] [Read 5]) 4 1 1 3).
  - lia.
  - reflexivity.
  - unfold buffers_fit; cbn. lia.
  - cbn. lia.
Defined.

(** * Further properties of the kernel *)

(** ** The exact accesses *)

Section Traces.
Variables DataSize Scale : Z.

Lemma accumulate_loop_trace (lag : Z) (n : nat) :
  forall (i acc : Z) (m : machine),
    0 <= lag -> 0 <= i ->
    i + Z.of_nat n + lag <= Z.of_nat (length (InputData m)) ->
    for_range n i (accumulate lag Scale) acc m
    = Some (accumulated (InputData m) lag Scale i n acc,
            logs (reads_from lag i n) m).
Proof.
  induction n as [| n IH]; intros i acc m Hlag Hi Hlen.
  - cbn. unfold ret. by rewrite logs_nil.
  - destruct (lookup_lt_is_Some_2 (InputData m) (Z.to_nat i)) as [x Hx]; [lia |].
    destruct (lookup_lt_is_Some_2 (InputData m) (Z.to_nat (i + lag)))
      as [y Hy]; [lia |].
    cbn [for_range accumulated reads_from]. unfold bind at 1.
    unfold accumulate, bind, load, ret.
    destruct (Z.ltb_spec i 0); [lia |]. rewrite Hx. cbn [InputData log].
    destruct (Z.ltb_spec (i + lag) 0); [lia |]. rewrite Hy.
    rewrite IH by (cbn; lia). cbn [InputData log].
    unfold term. rewrite (sample_lookup _ _ _ Hx), (sample_lookup _ _ _ Hy).
    do 2 f_equal. unfold logs, log; cbn. by rewrite <- !app_assoc.
Qed.

(** One lag, on buffers that hold it: also for a lag at or beyond
    [DataSize], where nothing is read. *)
Lemma correlate_trace (lag : Z) (m : machine) :
  0 <= lag ->
  DataSize <= Z.of_nat (length (InputData m)) ->
  lag < Z.of_nat (length (AutoCorrData m)) ->
  correlate DataSize Scale lag tt m
  = Some (tt, writes (Z.to_nat lag) [stored (InputData m) DataSize Scale lag]
                (lag_trace (InputData m) DataSize Scale lag) m).
Proof.
  intros Hlag Hin Hout. unfold correlate, bind, for_loop.
  rewrite Z.sub_0_r.
  assert (Hloop : for_range (Z.to_nat (DataSize - lag)) 0 (accumulate lag Scale) 0 m
                  = Some (accumulated (InputData m) lag Scale 0
                            (Z.to_nat (DataSize - lag)) 0,
                          logs (reads_from lag 0 (Z.to_nat (DataSize - lag))) m)).
  { destruct (Z.to_nat (DataSize - lag)) eqn:Hn.
    - cbn. unfold ret. by rewrite logs_nil.
    - rewrite <- Hn. apply accumulate_loop_trace; lia. }
  rewrite Hloop. unfold store. cbn [AutoCorrData logs].
  destruct (Z.ltb_spec lag 0); [lia |].
  destruct (Z.leb_spec (Z.of_nat (length (AutoCorrData m))) lag); [lia |].
  cbn [orb]. unfold writes, lag_trace, stored, log, set_output, logs; cbn.
  by rewrite !app_assoc.
Qed.

Lemma correlate_loop_trace (n : nat) :
  forall (lag : Z) (m : machine),
    0 <= lag ->
    DataSize <= Z.of_nat (length (InputData m)) ->
    lag + Z.of_nat n <= Z.of_nat (length (AutoCorrData m)) ->
    for_range n lag (correlate DataSize Scale) tt m
    = Some (tt, writes (Z.to_nat lag)
                  (stored (InputData m) DataSize Scale <$> seqZ lag (Z.of_nat n))
                  (kernel_trace (InputData m) DataSize Scale lag n) m).
Proof.
  induction n as [| n IH]; intros lag m Hlag Hin Hout.
  - cbn. unfold ret. by rewrite writes_nil.
  - cbn [for_range kernel_trace]. unfold bind.
    rewrite correlate_trace by lia.
    rewrite IH by (cbn; rewrite ?length_insert; lia).
    cbn [writes InputData].
    replace (Z.to_nat (lag + 1)) with (S (Z.to_nat lag)) by lia.
    fold (writes (Z.to_nat lag) [stored (InputData m) DataSize Scale lag]
            (lag_trace (InputData m) DataSize Scale lag) m).
    rewrite writes_cons.
    rewrite (seqZ_cons lag (Z.of_nat (S n))) by lia.
    replace (Z.pred (Z.of_nat (S n))) with (Z.of_nat n) by lia.
    by replace (Z.succ lag) with (lag + 1) by lia.
Qed.

End Traces.

(** A call on buffers that hold [DataSize] samples and [NumberOfLags]
    coefficients, whatever the order of the two sizes. *)
Lemma fxpAutoCorrelation_trace (m : machine) (DataSize NumberOfLags Scale : Z) :
  DataSize <= Z.of_nat (length (InputData m)) ->
  NumberOfLags <= Z.of_nat (length (AutoCorrData m)) ->
  fxpAutoCorrelation DataSize NumberOfLags Scale m
  = Some (tt, writes 0 (stored (InputData m) DataSize Scale <$> seqZ 0 NumberOfLags)
                (kernel_trace (InputData m) DataSize Scale 0 (Z.to_nat NumberOfLags))
                m).
Proof.
  intros Hin Hout. unfold fxpAutoCorrelation, for_loop. rewrite Z.sub_0_r.
  rewrite correlate_loop_trace by lia. change (Z.to_nat 0) with O.
  destruct (Z.le_gt_cases 0 NumberOfLags).
  - by rewrite Z2Nat.id.
  - replace (Z.to_nat NumberOfLags) with O by lia. cbn.
    by rewrite (seqZ_nil 0 NumberOfLags) by lia.
Qed.

(** ** When the call goes wrong *)

Lemma accumulate_loop_fails (lag Scale : Z) (n : nat) :
  forall (i acc : Z) (m : machine),
    0 <= lag -> 0 <= i -> n <> O ->
    Z.of_nat (length (InputData m)) < i + Z.of_nat n + lag ->
    for_range n i (accumulate lag Scale) acc m = None.
Proof.
  induction n as [| n IH]; intros i acc m Hlag Hi Hn Hlen; [done |].
  cbn [for_range]. unfold bind at 1. unfold accumulate, bind, load, ret.
  destruct (Z.ltb_spec i 0); [lia |].
  destruct (InputData m !! Z.to_nat i) as [x |] eqn:Hx; [| done].
  cbn [InputData log].
  destruct (Z.ltb_spec (i + lag) 0); [lia |].
  destruct (InputData m !! Z.to_nat (i + lag)) as [y |] eqn:Hy; [| done].
  apply lookup_lt_Some in Hy.
  apply IH; cbn [InputData log]; lia.
Qed.

Lemma correlate_fails_input (DataSize Scale : Z) (m : machine) :
  Z.of_nat (length (InputData m)) < DataSize ->
  correlate DataSize Scale 0 tt m = None.
Proof.
  intros Hin. unfold correlate, bind, for_loop.
  by rewrite accumulate_loop_fails by lia.
Qed.

Lemma correlate_fails_output (DataSize Scale lag : Z) (m : machine) :
  0 <= lag ->
  DataSize <= Z.of_nat (length (InputData m)) ->
  Z.of_nat (length (AutoCorrData m)) <= lag ->
  correlate DataSize Scale lag tt m = None.
Proof.
  intros Hlag Hin Hout. unfold correlate, bind, for_loop.
  destruct (for_range (Z.to_nat (DataSize - lag - 0)) 0 (accumulate lag Scale) 0 m)
    as [[a m'] |] eqn:Hloop; [| done].
  destruct (accumulate_loop_lockstep lag Scale (Z.to_nat (DataSize - lag - 0))
              0 0 m m eq_refl)
    as [[Hnone _] | (a' & m1 & _ & H1 & _ & evs & -> & _)]; [congruence |].
  assert (m' = logs evs m) as -> by congruence.
  unfold store. cbn [AutoCorrData logs].
  destruct (Z.leb_spec (Z.of_nat (length (AutoCorrData m))) lag); [| lia].
  by rewrite orb_true_r.
Qed.

Lemma correlate_loop_fails (DataSize Scale : Z) (n : nat) :
  forall (lag : Z) (m : machine),
    0 <= lag -> n <> O ->
    DataSize <= Z.of_nat (length (InputData m)) ->
    Z.of_nat (length (AutoCorrData m)) < lag + Z.of_nat n ->
    for_range n lag (correlate DataSize Scale) tt m = None.
Proof.
  induction n as [| n IH]; intros lag m Hlag Hn Hin Hout; [done |].
  cbn [for_range]. unfold bind.
  destruct (Z.le_gt_cases (Z.of_nat (length (AutoCorrData m))) lag).
  - by rewrite correlate_fails_output.
  - rewrite correlate_trace by lia. apply IH; cbn; rewrite ?length_insert; lia.
Qed.

Lemma goes_wrong_iff (m : machine) (DataSize NumberOfLags Scale : Z) :
  fxpAutoCorrelation DataSize NumberOfLags Scale m = None <->
  0 < NumberOfLags /\
  (Z.of_nat (length (InputData m)) < DataSize \/
   Z.of_nat (length (AutoCorrData m)) < NumberOfLags).
Proof.
  split.
  - intros Hnone.
    destruct (Z.le_gt_cases NumberOfLags 0) as [Hn | Hn].
    { unfold fxpAutoCorrelation, for_loop in Hnone.
      by replace (Z.to_nat (NumberOfLags - 0)) with O in Hnone by lia. }
    split; [done |].
    destruct (Z.le_gt_cases DataSize (Z.of_nat (length (InputData m))));
      [| by left].
    destruct (Z.le_gt_cases NumberOfLags (Z.of_nat (length (AutoCorrData m))));
      [| by right].
    by rewrite fxpAutoCorrelation_trace in Hnone.
  - intros (Hn & Hshort). unfold fxpAutoCorrelation, for_loop.
    destruct (Z.le_gt_cases DataSize (Z.of_nat (length (InputData m))))
      as [Hin | Hin].
    + apply correlate_loop_fails; lia.
    + destruct (Z.to_nat (NumberOfLags - 0)) eqn:Hk; [lia |].
      cbn [for_range]. unfold bind. by rewrite correlate_fails_input.
Qed.

(** X1. The call goes wrong exactly when it is asked for at least one lag
    and a buffer is too short: the input holds fewer than [DataSize] cells
    or the output fewer than [NumberOfLags] cells.  The order of
    [NumberOfLags] and [DataSize] plays no part. *)
Theorem fxpAutoCorrelation_goes_wrong
  (m : machine) (DataSize NumberOfLags Scale : Z) :
  fxpAutoCorrelation DataSize NumberOfLags Scale m = None <->
  0 < NumberOfLags /\
  (Z.of_nat (length (InputData m)) < DataSize \/
   Z.of_nat (length (AutoCorrData m)) < NumberOfLags).
Proof. apply goes_wrong_iff. Qed.

(** ** Lags at or beyond the data size *)

Lemma reads_from_in_bounds (lag : Z) (n : nat) :
  forall i, 0 <= lag -> 0 <= i ->
    Forall (in_bounds (i + Z.of_nat n + lag) 0) (reads_from lag i n).
Proof.
  induction n as [| n IH]; intros i Hlag Hi; cbn [reads_from]; [constructor |].
  constructor; [simpl; lia |]. constructor; [simpl; lia |].
  eapply Forall_impl; [apply (IH (i + 1)); lia |].
  intros e. apply in_bounds_mono; lia.
Qed.

Lemma kernel_trace_in_bounds (input : list Z) (DataSize Scale : Z) (n : nat) :
  forall lag, 0 <= lag ->
    Forall (in_bounds DataSize (lag + Z.of_nat n))
           (kernel_trace input DataSize Scale lag n).
Proof.
  induction n as [| n IH]; intros lag Hlag; cbn [kernel_trace]; [constructor |].
  apply Forall_app. split.
  - unfold lag_trace. apply Forall_app. split.
    + destruct (Z.to_nat (DataSize - lag)) eqn:Hn; [constructor |].
      rewrite <- Hn.
      eapply Forall_impl; [apply reads_from_in_bounds; lia |].
      intros e. apply in_bounds_mono; lia.
    + repeat constructor; simpl; lia.
  - eapply Forall_impl; [apply (IH (lag + 1)); lia |].
    intros e. apply in_bounds_mono; lia.
Qed.

Lemma stored_beyond (input : list Z) (DataSize Scale L : Z) :
  DataSize <= L -> stored input DataSize Scale L = 0.
Proof.
  intros HL. unfold stored.
  by replace (Z.to_nat (DataSize - L)) with O by lia.
Qed.

(** X2. [NumberOfLags < DataSize] is not needed for the call to stay in
    bounds: when the input holds [DataSize] cells and the output
    [NumberOfLags] cells the call returns, every access is in bounds, and
    each lag [L >= DataSize] gets the coefficient 0. *)
Theorem fxpAutoCorrelation_surplus_lags
  (m : machine) (DataSize NumberOfLags Scale : Z) :
  DataSize <= Z.of_nat (length (InputData m)) ->
  NumberOfLags <= Z.of_nat (length (AutoCorrData m)) ->
  exists m' evs,
    fxpAutoCorrelation DataSize NumberOfLags Scale m = Some (tt, m') /\
    accesses m' = accesses m ++ evs /\
    Forall (in_bounds DataSize NumberOfLags) evs /\
    forall L, 0 <= L < NumberOfLags -> DataSize <= L ->
      AutoCorrData m' !! Z.to_nat L = Some 0.
Proof.
  intros Hin Hout. do 2 eexists.
  split; [by apply fxpAutoCorrelation_trace |].
  split; [reflexivity |]. split.
  - destruct (Z.le_gt_cases 0 NumberOfLags).
    + eapply Forall_impl; [apply kernel_trace_in_bounds; lia |].
      intros e. apply in_bounds_mono; lia.
    + replace (Z.to_nat NumberOfLags) with O by lia. constructor.
  - intros L HL HD.
    rewrite lookup_writes_0 by (rewrite length_fmap, length_seqZ; lia).
    rewrite lookup_stored by done. f_equal. by apply stored_beyond.
Qed.

Lemma fxpAutoCorrelation_surplus_lags_witness :
  exists m' evs,
    fxpAutoCorrelation 2 4 0 (Machine [300; 400] [9; 9; 9; 9] []) = Some (tt, m') /\
    accesses m' = [] ++ evs /\
    Forall (in_bounds 2 4) evs /\
    forall L, 0 <= L < 4 -> 2 <= L -> AutoCorrData m' !! Z.to_nat L = Some 0.
Proof.
  apply (fxpAutoCorrelation_surplus_lags (Machine [300; 400] [9; 9; 9; 9] []) 2 4 0);
    cbn; lia.
Defined.

(** ** The narrowing and the stores *)

Lemma accumulated_is_s32 (input : list Z) (lag Scale : Z) (n : nat) :
  forall i acc, is_s32 acc -> is_s32 (accumulated input lag Scale i n acc).
Proof.
  induction n as [| n IH]; intros i acc Hacc; cbn [accumulated]; [done |].
  apply IH, e_s32_range.
Qed.

Lemma stored_msw (input : list Z) (DataSize Scale L : Z) :
  stored input DataSize Scale L
  = accumulated input L Scale 0 (Z.to_nat (DataSize - L)) 0 / 2 ^ 16.
Proof.
  unfold stored. rewrite Z.shiftr_div_pow2 by lia.
  apply e_s16_small, msw_fits, accumulated_is_s32. unfold is_s32. lia.
Qed.

Lemma returns_fits (m m' : machine) (DataSize NumberOfLags Scale : Z) :
  fxpAutoCorrelation DataSize NumberOfLags Scale m = Some (tt, m') ->
  0 < NumberOfLags ->
  DataSize <= Z.of_nat (length (InputData m)) /\
  NumberOfLags <= Z.of_nat (length (AutoCorrData m)).
Proof.
  intros Hrun Hn.
  destruct (Z.le_gt_cases DataSize (Z.of_nat (length (InputData m))));
    destruct (Z.le_gt_cases NumberOfLags (Z.of_nat (length (AutoCorrData m))));
    try done;
    assert (fxpAutoCorrelation DataSize NumberOfLags Scale m = None)
      by (apply goes_wrong_iff; lia); congruence.
Qed.

(** X3. The narrowing to 16 bits never discards anything: after a call
    that returns, whatever the cells of the input hold, cell [L] of a lag
    [L < NumberOfLags] holds the 32-bit accumulator of that lag divided by
    [2 ^ 16], rounded down, and this value fits 16 bits as it is. *)
Theorem fxpAutoCorrelation_msw
  (m m' : machine) (DataSize NumberOfLags Scale L : Z) :
  fxpAutoCorrelation DataSize NumberOfLags Scale m = Some (tt, m') ->
  0 <= L < NumberOfLags ->
  AutoCorrData m' !! Z.to_nat L
  = Some (accumulated (InputData m) L Scale 0 (Z.to_nat (DataSize - L)) 0 / 2 ^ 16)
  /\ is_s32 (accumulated (InputData m) L Scale 0 (Z.to_nat (DataSize - L)) 0)
  /\ is_s16 (accumulated (InputData m) L Scale 0 (Z.to_nat (DataSize - L)) 0 / 2 ^ 16).
Proof.
  intros Hrun HL.
  destruct (returns_fits _ _ _ _ _ Hrun ltac:(lia)) as (Hin & Hout).
  rewrite fxpAutoCorrelation_trace in Hrun by done.
  assert (Hacc : is_s32 (accumulated (InputData m) L Scale 0
                           (Z.to_nat (DataSize - L)) 0))
    by (apply accumulated_is_s32; unfold is_s32; lia).
  split; [| split; [done | by apply msw_fits]].
  injection Hrun as <-.
  rewrite lookup_writes_0 by (rewrite length_fmap, length_seqZ; lia).
  rewrite lookup_stored by done. f_equal. apply stored_msw.
Qed.

Lemma fxpAutoCorrelation_msw_witness :
  AutoCorrData (Machine [40000; -70000] [-31890; 0] [Read 0; Read 0; Read 1; Read 1;
                                                    Write 0 (-31890)])
    !! Z.to_nat 0
  = Some (accumulated [40000; -70000] 0 0 0 (Z.to_nat (2 - 0)) 0 / 2 ^ 16)
  /\ is_s32 (accumulated [40000; -70000] 0 0 0 (Z.to_nat (2 - 0)) 0)
  /\ is_s16 (accumulated [40000; -70000] 0 0 0 (Z.to_nat (2 - 0)) 0 / 2 ^ 16).
Proof.
  apply (fxpAutoCorrelation_msw (Machine [40000; -70000] [0; 0] []) _ 2 1 0 0).
  - reflexivity.
  - lia.
Defined.

Lemma stores_app (evs evs' : list access) :
  stores (evs ++ evs') = stores evs ++ stores evs'.
Proof.
  induction evs as [| [i | i v] evs IH]; cbn; [done | done | by rewrite IH].
Qed.

Lemma stores_reads_from (lag : Z) (n : nat) :
  forall i, stores (reads_from lag i n) = [].
Proof. induction n as [| n IH]; intros i; cbn; [done | apply IH]. Qed.

Lemma stores_kernel_trace (input : list Z) (DataSize Scale : Z) (n : nat) :
  forall lag,
    stores (kernel_trace input DataSize Scale lag n)
    = zip (seqZ lag (Z.of_nat n))
          (stored input DataSize Scale <$> seqZ lag (Z.of_nat n)).
Proof.
  induction n as [| n IH]; intros lag; [done |].
  cbn [kernel_trace]. unfold lag_trace.
  rewrite !stores_app, stores_reads_from, IH.
  rewrite (seqZ_cons lag (Z.of_nat (S n))) by lia.
  replace (Z.pred (Z.of_nat (S n))) with (Z.of_nat n) by lia.
  by replace (Z.succ lag) with (lag + 1) by lia.
Qed.

(** X4. On buffers that hold the call, the stores it performs are exactly
    one store to each of the cells 0, 1, ..., [NumberOfLags - 1], in this
    order, and each stores the value the cell holds at the end: no cell is
    written twice. *)
Theorem fxpAutoCorrelation_stores
  (m : machine) (DataSize NumberOfLags Scale : Z) :
  DataSize <= Z.of_nat (length (InputData m)) ->
  NumberOfLags <= Z.of_nat (length (AutoCorrData m)) ->
  exists m' evs,
    fxpAutoCorrelation DataSize NumberOfLags Scale m = Some (tt, m') /\
    accesses m' = accesses m ++ evs /\
    stores evs
    = zip (seqZ 0 NumberOfLags) (take (Z.to_nat NumberOfLags) (AutoCorrData m')).
Proof.
  intros Hin Hout. do 2 eexists.
  split; [by apply fxpAutoCorrelation_trace |].
  split; [reflexivity |].
  rewrite stores_kernel_trace.
  assert (Hlen : length (stored (InputData m) DataSize Scale <$> seqZ 0 NumberOfLags)
                 = Z.to_nat NumberOfLags)
    by (by rewrite length_fmap, length_seqZ).
  match goal with
  | |- context [take _ (AutoCorrData (writes 0 ?ws ?evs ?m0))] =>
      replace (take (Z.to_nat NumberOfLags) (AutoCorrData (writes 0 ws evs m0)))
        with ws by (symmetry; rewrite <- Hlen; apply take_writes_0; lia)
  end.
  destruct (Z.le_gt_cases 0 NumberOfLags).
  - by rewrite Z2Nat.id.
  - by rewrite !(seqZ_nil 0) by lia.
Qed.

Lemma fxpAutoCorrelation_stores_witness :
  exists m' evs,
    fxpAutoCorrelation 3 2 0 (Machine [300; -400; 500] [7; 7; 7] []) = Some (tt, m') /\
    accesses m' = [] ++ evs /\
    stores evs = zip (seqZ 0 2) (take (Z.to_nat 2) (AutoCorrData m')).
Proof.
  apply (fxpAutoCorrelation_stores (Machine [300; -400; 500] [7; 7; 7] []) 3 2 0);
    cbn; lia.
Defined.

Lemma count_reads_app (evs evs' : list access) :
  count_reads (evs ++ evs') = count_reads evs + count_reads evs'.
Proof.
  induction evs as [| [i | i v] evs IH]; cbn [app count_reads]; lia.
Qed.

Lemma count_reads_from (lag : Z) (n : nat) :
  forall i, count_reads (reads_from lag i n) = 2 * Z.of_nat n.
Proof.
  induction n as [| n IH]; intros i; cbn [reads_from count_reads]; [done |].
  rewrite IH. lia.
Qed.

Lemma count_reads_kernel_trace (input : list Z) (DataSize Scale : Z) (n : nat) :
  forall lag,
    0 <= lag -> lag + Z.of_nat n <= DataSize + 1 ->
    count_reads (kernel_trace input DataSize Scale lag n)
    = Z.of_nat n * (2 * DataSize - 2 * lag - Z.of_nat n + 1).
Proof.
  induction n as [| n IH]; intros lag Hlag Hn; cbn [kernel_trace]; [done |].
  unfold lag_trace. rewrite !count_reads_app, count_reads_from, IH by lia.
  cbn [count_reads]. rewrite Z2Nat.id, Nat2Z.inj_succ by lia. lia.
Qed.

(** X5. The cost of a call with [0 <= NumberOfLags <= DataSize] on buffers
    that hold it: it reads samples exactly
    [NumberOfLags * (2 * DataSize - NumberOfLags + 1)] times, two for each
    of the [DataSize - L] terms of each lag [L]. *)
Theorem fxpAutoCorrelation_read_count
  (m : machine) (DataSize NumberOfLags Scale : Z) :
  0 <= NumberOfLags <= DataSize ->
  DataSize <= Z.of_nat (length (InputData m)) ->
  NumberOfLags <= Z.of_nat (length (AutoCorrData m)) ->
  exists m' evs,
    fxpAutoCorrelation DataSize NumberOfLags Scale m = Some (tt, m') /\
    accesses m' = accesses m ++ evs /\
    count_reads evs = NumberOfLags * (2 * DataSize - NumberOfLags + 1).
Proof.
  intros Hlags Hin Hout. do 2 eexists.
  split; [by apply fxpAutoCorrelation_trace |].
  split; [reflexivity |].
  rewrite count_reads_kernel_trace by lia. nia.
Qed.

Lemma fxpAutoCorrelation_read_count_witness :
  exists m' evs,
    fxpAutoCorrelation 4 3 1 (Machine [1; 2; 3; 4] [0; 0; 0] []) = Some (tt, m') /\
    accesses m' = [] ++ evs /\
    count_reads evs = 3 * (2 * 4 - 3 + 1).
Proof.
  apply (fxpAutoCorrelation_read_count (Machine [1; 2; 3; 4] [0; 0; 0] []) 4 3 1);
    cbn; lia.
Defined.

(** ** The scale against overflow *)

Lemma scaled_product_bound (input : list Z) (L Scale i : Z) :
  Forall is_s16 input -> 0 <= Scale <= 30 ->
  - 2 ^ (30 - Scale) <= scaled_product input L Scale i <= 2 ^ (30 - Scale).
Proof.
  intros Hs16 HScale. unfold scaled_product.
  pose proof (sample_is_s16 input i Hs16) as Ha.
  pose proof (sample_is_s16 input (i + L) Hs16) as Hb.
  set (a := sample input i) in *. set (b := sample input (i + L)) in *.
  assert (HP : 0 < 2 ^ Scale) by (apply Z.pow_pos_nonneg; lia).
  assert (Hsplit : 2 ^ 30 = 2 ^ (30 - Scale) * 2 ^ Scale).
  { rewrite <- Z.pow_add_r by lia. f_equal. lia. }
  assert (Hab : - 2 ^ 30 <= a * b <= 2 ^ 30).
  { unfold is_s16 in Ha, Hb. change (2 ^ 30) with 1073741824. nia. }
  split.
  - apply Z.le_trans with ((- 2 ^ (30 - Scale) * 2 ^ Scale) / 2 ^ Scale).
    + rewrite Z.div_mul; lia.
    + apply Z.div_le_mono; lia.
  - apply Z.le_trans with ((2 ^ (30 - Scale) * 2 ^ Scale) / 2 ^ Scale).
    + apply Z.div_le_mono; lia.
    + rewrite Z.div_mul; lia.
Qed.

Lemma sum_range_bound (f : Z -> Z) (B : Z) (n : nat) :
  (forall i, - B <= f i <= B) ->
  forall i, - (B * Z.of_nat n) <= sum_range f i n <= B * Z.of_nat n.
Proof.
  intros Hf i.
  pose proof (sum_range_le f (fun _ => B) n (fun j => proj2 (Hf j)) i) as Hup.
  pose proof (sum_range_le (fun _ => - B) f n (fun j => proj1 (Hf j)) i) as Hlo.
  rewrite sum_range_const in Hup, Hlo. lia.
Qed.

Lemma lag_sum_fits (input : list Z) (DataSize L Scale : Z) :
  Forall is_s16 input -> 0 <= Scale <= 30 -> 0 <= L ->
  DataSize * 2 ^ (30 - Scale) <= 2147483647 ->
  is_s32 (lag_sum input DataSize L Scale).
Proof.
  intros Hs16 HScale HL Hfit. unfold lag_sum.
  pose proof (sum_range_bound (scaled_product input L Scale) (2 ^ (30 - Scale))
                (Z.to_nat (DataSize - L))
                (fun i => scaled_product_bound input L Scale i Hs16 HScale) 0)
    as Hsum.
  assert (HB : 0 < 2 ^ (30 - Scale)) by (apply Z.pow_pos_nonneg; lia).
  assert (Hn : 2 ^ (30 - Scale) * Z.of_nat (Z.to_nat (DataSize - L)) <= 2147483647).
  { destruct (Z.le_gt_cases DataSize L).
    - replace (Z.to_nat (DataSize - L)) with O by lia. lia.
    - rewrite Z2Nat.id by lia. nia. }
  unfold is_s32. lia.
Qed.

(** X6. The scale bounds the growth of the accumulator: in a valid call
    with [Scale <= 30] and [DataSize * 2 ^ (30 - Scale) <= 2 ^ 31 - 1] (for
    instance any [DataSize <= 32767] with [Scale >= 14]) no accumulator
    wraps around, and cell [L] holds the sum of the scaled products of lag
    [L] divided by [2 ^ 16], rounded down. *)
Theorem fxpAutoCorrelation_no_overflow
  (m : machine) (DataSize NumberOfLags Scale : Z) :
  valid_call m DataSize NumberOfLags Scale ->
  Scale <= 30 ->
  DataSize * 2 ^ (30 - Scale) <= 2147483647 ->
  exists m',
    fxpAutoCorrelation DataSize NumberOfLags Scale m = Some (tt, m') /\
    forall L, 0 <= L < NumberOfLags ->
      is_s32 (lag_sum (InputData m) DataSize L Scale) /\
      AutoCorrData m' !! Z.to_nat L
      = Some (lag_sum (InputData m) DataSize L Scale / 2 ^ 16).
Proof.
  intros Hvalid HScale Hfit.
  pose proof Hvalid as ((Hin & Hout & Hlags) & Hs16 & HScale0).
  destruct (fxpAutoCorrelation_returns m DataSize NumberOfLags Scale
              (proj1 Hvalid)) as (evs & Hrun & _).
  eexists. split; [exact Hrun |]. intros L HL.
  assert (HLfits : is_s32 (lag_sum (InputData m) DataSize L Scale))
    by (apply lag_sum_fits; (done || lia)).
  split; [done |].
  rewrite lookup_writes_0 by (rewrite length_fmap, length_seqZ; lia).
  rewrite lookup_stored by done. f_equal.
  rewrite stored_coefficient by (done || lia). by apply coefficient_fits.
Qed.

Lemma fxpAutoCorrelation_no_overflow_witness :
  exists m',
    fxpAutoCorrelation 3 2 14
      (Machine [-32768; 32767; -32768] [0; 0] []) = Some (tt, m') /\
    forall L, 0 <= L < 2 ->
      is_s32 (lag_sum [-32768; 32767; -32768] 3 L 14) /\
      AutoCorrData m' !! Z.to_nat L
      = Some (lag_sum [-32768; 32767; -32768] 3 L 14 / 2 ^ 16).
Proof.
  apply (fxpAutoCorrelation_no_overflow
           (Machine [-32768; 32767; -32768] [0; 0] []) 3 2 14).
  - unfold valid_call, buffers_fit; cbn.
    repeat split; try lia; repeat constructor; unfold is_s16; lia.
  - lia.
  - vm_compute. discriminate.
Defined.

(** ** Transformations of the input that leave the coefficients alone *)

(** Two valid calls with the same lag count whose reference coefficients
    agree, at the shift counts taken, leave the same coefficients. *)
Lemma same_coefficients
  (m1 m2 : machine) (DataSize1 DataSize2 NumberOfLags Scale1 Scale2 : Z) :
  valid_call m1 DataSize1 NumberOfLags Scale1 ->
  valid_call m2 DataSize2 NumberOfLags Scale2 ->
  (forall L, 0 <= L < NumberOfLags ->
     coefficient (InputData m1) DataSize1 (Scale1 mod 32) L
     = coefficient (InputData m2) DataSize2 (Scale2 mod 32) L) ->
  exists m1' m2',
    fxpAutoCorrelation DataSize1 NumberOfLags Scale1 m1 = Some (tt, m1') /\
    fxpAutoCorrelation DataSize2 NumberOfLags Scale2 m2 = Some (tt, m2') /\
    take (Z.to_nat NumberOfLags) (AutoCorrData m1')
    = take (Z.to_nat NumberOfLags) (AutoCorrData m2').
Proof.
  intros (Hfit1 & Hs1 & HS1) (Hfit2 & Hs2 & HS2) Hcoef.
  destruct (fxpAutoCorrelation_returns m1 DataSize1 NumberOfLags Scale1 Hfit1)
    as (evs1 & Hrun1 & _).
  destruct (fxpAutoCorrelation_returns m2 DataSize2 NumberOfLags Scale2 Hfit2)
    as (evs2 & Hrun2 & _).
  do 2 eexists. do 2 (split; [eassumption |]).
  destruct Hfit1 as (_ & Hout1 & _). destruct Hfit2 as (_ & Hout2 & _).
  assert (Hws : stored (InputData m1) DataSize1 Scale1 <$> seqZ 0 NumberOfLags
                = stored (InputData m2) DataSize2 Scale2 <$> seqZ 0 NumberOfLags).
  { apply list_fmap_ext. intros j L HjL. apply lookup_seqZ in HjL.
    rewrite !stored_coefficient_mod by done. apply Hcoef. lia. }
  assert (Hlen : forall f : Z -> Z,
             length (f <$> seqZ 0 NumberOfLags) = Z.to_nat NumberOfLags)
    by (intros f; by rewrite length_fmap, length_seqZ).
  rewrite <- (Hlen (stored (InputData m1) DataSize1 Scale1)) at 1.
  rewrite take_writes_0 by (rewrite Hlen; lia).
  rewrite <- (Hlen (stored (InputData m2) DataSize2 Scale2)).
  rewrite take_writes_0 by (rewrite Hlen; lia).
  exact Hws.
Qed.

Lemma sample_fmap (f : Z -> Z) (input : list Z) (i : Z) :
  f 0 = 0 -> sample (f <$> input) i = f (sample input i).
Proof.
  intros Hf. unfold sample. rewrite list_lookup_fmap.
  by destruct (input !! Z.to_nat i).
Qed.

(** X7. The coefficients do not depend on the sign of the signal: a valid
    call on the negated samples (which asks that no sample is -32768)
    leaves the same coefficients as the call on the samples. *)
Theorem fxpAutoCorrelation_negated
  (m1 m2 : machine) (DataSize NumberOfLags Scale : Z) :
  valid_call m1 DataSize NumberOfLags Scale ->
  valid_call m2 DataSize NumberOfLags Scale ->
  InputData m2 = Z.opp <$> InputData m1 ->
  exists m1' m2',
    fxpAutoCorrelation DataSize NumberOfLags Scale m1 = Some (tt, m1') /\
    fxpAutoCorrelation DataSize NumberOfLags Scale m2 = Some (tt, m2') /\
    take (Z.to_nat NumberOfLags) (AutoCorrData m1')
    = take (Z.to_nat NumberOfLags) (AutoCorrData m2').
Proof.
  intros Hv1 Hv2 Hneg. apply same_coefficients; try done.
  intros L _. unfold coefficient, lag_sum. do 3 f_equal.
  apply sum_range_ext. intros i. unfold scaled_product.
  rewrite Hneg, !sample_fmap by done. by rewrite Z.mul_opp_opp.
Qed.

Lemma fxpAutoCorrelation_negated_witness :
  exists m1' m2',
    fxpAutoCorrelation 3 2 1 (Machine [700; -900; 1100] [0; 0] []) = Some (tt, m1') /\
    fxpAutoCorrelation 3 2 1 (Machine [-700; 900; -1100] [5; 6] []) = Some (tt, m2') /\
    take (Z.to_nat 2) (AutoCorrData m1') = take (Z.to_nat 2) (AutoCorrData m2').
Proof.
  apply (fxpAutoCorrelation_negated
           (Machine [700; -900; 1100] [0; 0] [])
           (Machine [-700; 900; -1100] [5; 6] []) 3 2 1).
  - unfold valid_call, buffers_fit; cbn.
    repeat split; try lia; repeat constructor; unfold is_s16; lia.
  - unfold valid_call, buffers_fit; cbn.
    repeat split; try lia; repeat constructor; unfold is_s16; lia.
  - reflexivity.
Defined.

(** X8. Gain against scale: multiplying every sample by [2 ^ k] and
    raising the scale by [2 * k] leaves the coefficients as they are, as
    long as the amplified samples still fit 16 bits and the raised scale
    stays a shift count, [Scale + 2 * k <= 31]. *)
Theorem fxpAutoCorrelation_gain
  (m1 m2 : machine) (DataSize NumberOfLags Scale k : Z) :
  0 <= k ->
  Scale + 2 * k <= 31 ->
  valid_call m1 DataSize NumberOfLags Scale ->
  valid_call m2 DataSize NumberOfLags (Scale + 2 * k) ->
  InputData m2 = (fun x => x * 2 ^ k) <$> InputData m1 ->
  exists m1' m2',
    fxpAutoCorrelation DataSize NumberOfLags Scale m1 = Some (tt, m1') /\
    fxpAutoCorrelation DataSize NumberOfLags (Scale + 2 * k) m2 = Some (tt, m2') /\
    take (Z.to_nat NumberOfLags) (AutoCorrData m1')
    = take (Z.to_nat NumberOfLags) (AutoCorrData m2').
Proof.
  intros Hk Hcount Hv1 Hv2 Hgain. apply same_coefficients; try done.
  destruct Hv1 as (_ & _ & HScale).
  rewrite !Z.mod_small by lia.
  intros L _. unfold coefficient, lag_sum. do 3 f_equal.
  apply sum_range_ext. intros i. unfold scaled_product.
  rewrite Hgain, !sample_fmap by done.
  assert (Hpk : 0 < 2 ^ k * 2 ^ k)
    by (apply Z.mul_pos_pos; apply Z.pow_pos_nonneg; lia).
  replace (2 ^ (Scale + 2 * k)) with (2 ^ Scale * (2 ^ k * 2 ^ k))
    by (rewrite <- !Z.pow_add_r by lia; f_equal; lia).
  replace (sample (InputData m1) i * 2 ^ k * (sample (InputData m1) (i + L) * 2 ^ k))
    with (sample (InputData m1) i * sample (InputData m1) (i + L) * (2 ^ k * 2 ^ k))
    by lia.
  symmetry. apply Z.div_mul_cancel_r; [| lia].
  apply Z.pow_nonzero; lia.
Qed.

Lemma fxpAutoCorrelation_gain_witness :
  exists m1' m2',
    fxpAutoCorrelation 3 2 1 (Machine [700; -900; 1100] [0; 0] []) = Some (tt, m1') /\
    fxpAutoCorrelation 3 2 (1 + 2 * 3) (Machine [5600; -7200; 8800] [5; 6] [])
    = Some (tt, m2') /\
    take (Z.to_nat 2) (AutoCorrData m1') = take (Z.to_nat 2) (AutoCorrData m2').
Proof.
  apply (fxpAutoCorrelation_gain
           (Machine [700; -900; 1100] [0; 0] [])
           (Machine [5600; -7200; 8800] [5; 6] []) 3 2 1 3).
  - lia.
  - lia.
  - unfold valid_call, buffers_fit; cbn.
    repeat split; try lia; repeat constructor; unfold is_s16; lia.
  - unfold valid_call, buffers_fit; cbn.
    repeat split; try lia; repeat constructor; unfold is_s16; lia.
  - reflexivity.
Defined.

(** The bound on the raised scale is needed: from scale 30 to scale 32, the
    latter shifting by nothing, the coefficients differ. *)
Example gain_beyond_shift_counts :
  exists m1' m2',
    run [700; -900; 1100] [0; 0] 3 2 30 = Some (tt, m1') /\
    run [1400; -1800; 2200] [0; 0] 3 2 32 = Some (tt, m2') /\
    AutoCorrData m1' = [0; -1] /\ AutoCorrData m2' = [153; -99].
Proof. do 2 eexists. repeat split; reflexivity. Qed.

Lemma sample_beyond (input : list Z) (i : Z) :
  Z.of_nat (length input) <= i -> sample input i = 0.
Proof.
  intros Hi. unfold sample. by rewrite lookup_ge_None_2 by lia.
Qed.

Lemma sample_app_zeros (input : list Z) (k : nat) (i : Z) :
  sample (input ++ replicate k 0) i = sample input i.
Proof.
  unfold sample.
  destruct (decide (Z.to_nat i < length input)%nat) as [Hlt | Hge].
  - by rewrite lookup_app_l.
  - rewrite lookup_app_r, (lookup_ge_None_2 input) by lia.
    destruct (replicate k 0 !! (Z.to_nat i - length input)%nat) as [y |] eqn:Hy;
      [| done].
    by apply lookup_replicate in Hy as [-> _].
Qed.

Lemma sum_range_zero (f : Z -> Z) (n : nat) :
  forall i, (forall j, i <= j -> f j = 0) -> sum_range f i n = 0.
Proof.
  induction n as [| n IH]; intros i Hf; cbn [sum_range]; [done |].
  rewrite Hf by lia. rewrite IH; [done |]. intros j Hj. apply Hf. lia.
Qed.

Lemma lag_sum_padded (input : list Z) (k : nat) (DataSize L Scale : Z) :
  Z.of_nat (length input) = DataSize -> 0 <= L <= DataSize ->
  lag_sum (input ++ replicate k 0) (DataSize + Z.of_nat k) L Scale
  = lag_sum input DataSize L Scale.
Proof.
  intros Hlen HL. unfold lag_sum.
  replace (Z.to_nat (DataSize + Z.of_nat k - L))
    with (Z.to_nat (DataSize - L) + k)%nat by lia.
  rewrite sum_range_app.
  rewrite (sum_range_ext (scaled_product (input ++ replicate k 0) L Scale)
             (scaled_product input L Scale))
    by (intros i; unfold scaled_product; by rewrite !sample_app_zeros).
  rewrite (sum_range_zero _ k); [lia |].
  intros j Hj. unfold scaled_product.
  rewrite sample_app_zeros, (sample_app_zeros _ _ (j + L)).
  rewrite (sample_beyond input (j + L)) by lia.
  by rewrite Z.mul_0_r.
Qed.

(** X9. Zero padding: appending [k] zero samples to a signal of exactly
    [DataSize] samples and raising [DataSize] by [k] leaves the coefficients
    as they are. *)
Theorem fxpAutoCorrelation_zero_padding
  (m1 m2 : machine) (k : nat) (DataSize NumberOfLags Scale : Z) :
  valid_call m1 DataSize NumberOfLags Scale ->
  Z.of_nat (length (InputData m1)) = DataSize ->
  InputData m2 = InputData m1 ++ replicate k 0 ->
  NumberOfLags <= Z.of_nat (length (AutoCorrData m2)) ->
  exists m1' m2',
    fxpAutoCorrelation DataSize NumberOfLags Scale m1 = Some (tt, m1') /\
    fxpAutoCorrelation (DataSize + Z.of_nat k) NumberOfLags Scale m2
    = Some (tt, m2') /\
    take (Z.to_nat NumberOfLags) (AutoCorrData m1')
    = take (Z.to_nat NumberOfLags) (AutoCorrData m2').
Proof.
  intros Hv1 Hlen Hpad Hout2.
  pose proof Hv1 as ((Hin & Hout & Hlags) & Hs16 & HScale).
  apply same_coefficients; [done | |].
  - unfold valid_call, buffers_fit. rewrite Hpad, length_app, length_replicate.
    repeat split; try lia.
    apply Forall_app. split; [done |]. apply Forall_replicate. unfold is_s16. lia.
  - intros L HL. unfold coefficient. rewrite Hpad, lag_sum_padded; (done || lia).
Qed.

Lemma fxpAutoCorrelation_zero_padding_witness :
  exists m1' m2',
    fxpAutoCorrelation 3 2 1 (Machine [700; -900; 1100] [0; 0] []) = Some (tt, m1') /\
    fxpAutoCorrelation (3 + Z.of_nat 2) 2 1
      (Machine [700; -900; 1100; 0; 0] [5; 6] []) = Some (tt, m2') /\
    take (Z.to_nat 2) (AutoCorrData m1') = take (Z.to_nat 2) (AutoCorrData m2').
Proof.
  apply (fxpAutoCorrelation_zero_padding
           (Machine [700; -900; 1100] [0; 0] [])
           (Machine [700; -900; 1100; 0; 0] [5; 6] []) 2 3 2 1).
  - unfold valid_call, buffers_fit; cbn.
    repeat split; try lia; repeat constructor; unfold is_s16; lia.
  - reflexivity.
  - reflexivity.
  - cbn. lia.
Defined.

Lemma sum_range_snoc (f : Z -> Z) (n : nat) (i : Z) :
  sum_range f i (S n) = sum_range f i n + f (i + Z.of_nat n).
Proof.
  replace (S n) with (n + 1)%nat by lia. rewrite sum_range_app. cbn. lia.
Qed.

Lemma sum_range_ext_range (f g : Z -> Z) (n : nat) :
  forall i,
    (forall j, i <= j < i + Z.of_nat n -> f j = g j) ->
    sum_range f i n = sum_range g i n.
Proof.
  induction n as [| n IH]; intros i Hfg; cbn [sum_range]; [done |].
  rewrite Hfg by lia. rewrite (IH (i + 1)); [done |].
  intros j Hj. apply Hfg. lia.
Qed.

Lemma sum_range_rev (f : Z -> Z) (n : nat) :
  sum_range f 0 n = sum_range (fun j => f (Z.of_nat n - 1 - j)) 0 n.
Proof.
  induction n as [| n IH]; [done |].
  rewrite sum_range_snoc, IH. cbn [sum_range].
  rewrite <- (sum_range_shift (fun j => f (Z.of_nat (S n) - 1 - j)) 1 n 0).
  rewrite (sum_range_ext (fun j => f (Z.of_nat (S n) - 1 - (j + 1)))
             (fun j => f (Z.of_nat n - 1 - j)))
    by (intros j; f_equal; lia).
  replace (Z.of_nat (S n) - 1 - 0) with (0 + Z.of_nat n) by lia. lia.
Qed.

Lemma sample_reverse (input : list Z) (j : Z) :
  0 <= j < Z.of_nat (length input) ->
  sample (reverse input) j = sample input (Z.of_nat (length input) - 1 - j).
Proof.
  intros Hj. unfold sample. rewrite reverse_lookup by lia.
  do 2 f_equal. lia.
Qed.

Lemma lag_sum_reverse (input : list Z) (DataSize L Scale : Z) :
  Z.of_nat (length input) = DataSize -> 0 <= L <= DataSize ->
  lag_sum (reverse input) DataSize L Scale = lag_sum input DataSize L Scale.
Proof.
  intros Hlen HL. unfold lag_sum.
  rewrite (sum_range_rev (scaled_product input L Scale)).
  apply sum_range_ext_range. intros j Hj. unfold scaled_product.
  rewrite !sample_reverse by lia. rewrite Hlen, Z.mul_comm.
  do 3 f_equal; lia.
Qed.

(** X10. Time reversal: on a signal of exactly [DataSize] samples, the
    call on the reversed signal leaves the same coefficients. *)
Theorem fxpAutoCorrelation_reversed
  (m1 m2 : machine) (DataSize NumberOfLags Scale : Z) :
  valid_call m1 DataSize NumberOfLags Scale ->
  Z.of_nat (length (InputData m1)) = DataSize ->
  InputData m2 = reverse (InputData m1) ->
  NumberOfLags <= Z.of_nat (length (AutoCorrData m2)) ->
  exists m1' m2',
    fxpAutoCorrelation DataSize NumberOfLags Scale m1 = Some (tt, m1') /\
    fxpAutoCorrelation DataSize NumberOfLags Scale m2 = Some (tt, m2') /\
    take (Z.to_nat NumberOfLags) (AutoCorrData m1')
    = take (Z.to_nat NumberOfLags) (AutoCorrData m2').
Proof.
  intros Hv1 Hlen Hrev Hout2.
  pose proof Hv1 as ((Hin & Hout & Hlags) & Hs16 & HScale).
  apply same_coefficients; [done | |].
  - unfold valid_call, buffers_fit. rewrite Hrev, length_reverse.
    repeat split; try lia. by apply Forall_reverse.
  - intros L HL. unfold coefficient. rewrite Hrev, lag_sum_reverse; (done || lia).
Qed.

Lemma fxpAutoCorrelation_reversed_witness :
  exists m1' m2',
    fxpAutoCorrelation 4 3 1 (Machine [700; -900; 1100; 25] [0; 0; 0] [])
    = Some (tt, m1') /\
    fxpAutoCorrelation 4 3 1 (Machine [25; 1100; -900; 700] [5; 6; 7] [])
    = Some (tt, m2') /\
    take (Z.to_nat 3) (AutoCorrData m1') = take (Z.to_nat 3) (AutoCorrData m2').
Proof.
  apply (fxpAutoCorrelation_reversed
           (Machine [700; -900; 1100; 25] [0; 0; 0] [])
           (Machine [25; 1100; -900; 700] [5; 6; 7] []) 4 3 1).
  - unfold valid_call, buffers_fit; cbn.
    repeat split; try lia; repeat constructor; unfold is_s16; lia.
  - reflexivity.
  - reflexivity.
  - cbn. lia.
Defined.

(** ** Cells beyond the data size *)

Lemma accumulated_ext (in1 in2 : list Z) (lag Scale : Z) (n : nat) :
  forall i acc,
    (forall j, i <= j < i + Z.of_nat n + lag -> sample in1 j = sample in2 j) ->
    0 <= lag ->
    accumulated in1 lag Scale i n acc = accumulated in2 lag Scale i n acc.
Proof.
  induction n as [| n IH]; intros i acc Hsame Hlag; cbn [accumulated]; [done |].
  unfold term. rewrite (Hsame i), (Hsame (i + lag)) by lia.
  apply IH; [| done]. intros j Hj. apply Hsame. lia.
Qed.

Lemma stored_ext (in1 in2 : list Z) (DataSize Scale L : Z) :
  take (Z.to_nat DataSize) in1 = take (Z.to_nat DataSize) in2 ->
  0 <= L ->
  stored in1 DataSize Scale L = stored in2 DataSize Scale L.
Proof.
  intros Htake HL. unfold stored. do 2 f_equal.
  destruct (Z.to_nat (DataSize - L)) eqn:Hn; [done |]. rewrite <- Hn.
  apply accumulated_ext; [| done]. intros j Hj. unfold sample.
  rewrite <- (lookup_take_lt in1 (Z.to_nat DataSize)) by lia.
  rewrite <- (lookup_take_lt in2 (Z.to_nat DataSize)) by lia.
  by rewrite Htake.
Qed.

(** X11. Only the first [DataSize] samples matter: two calls whose inputs
    agree on their first [DataSize] cells, on buffers that hold the call,
    both return and leave the same coefficients, whatever the inputs hold
    further on. *)
Theorem fxpAutoCorrelation_surplus_input
  (m1 m2 : machine) (DataSize NumberOfLags Scale : Z) :
  take (Z.to_nat DataSize) (InputData m1) = take (Z.to_nat DataSize) (InputData m2) ->
  DataSize <= Z.of_nat (length (InputData m1)) ->
  DataSize <= Z.of_nat (length (InputData m2)) ->
  NumberOfLags <= Z.of_nat (length (AutoCorrData m1)) ->
  NumberOfLags <= Z.of_nat (length (AutoCorrData m2)) ->
  exists m1' m2',
    fxpAutoCorrelation DataSize NumberOfLags Scale m1 = Some (tt, m1') /\
    fxpAutoCorrelation DataSize NumberOfLags Scale m2 = Some (tt, m2') /\
    take (Z.to_nat NumberOfLags) (AutoCorrData m1')
    = take (Z.to_nat NumberOfLags) (AutoCorrData m2').
Proof.
  intros Htake Hin1 Hin2 Hout1 Hout2. do 2 eexists.
  split; [by apply fxpAutoCorrelation_trace |].
  split; [by apply fxpAutoCorrelation_trace |].
  assert (Hlen : forall f : Z -> Z,
             length (f <$> seqZ 0 NumberOfLags) = Z.to_nat NumberOfLags)
    by (intros f; by rewrite length_fmap, length_seqZ).
  rewrite <- (Hlen (stored (InputData m1) DataSize Scale)) at 1.
  rewrite take_writes_0 by (rewrite Hlen; lia).
  rewrite <- (Hlen (stored (InputData m2) DataSize Scale)) at 1.
  rewrite take_writes_0 by (rewrite Hlen; lia).
  apply list_fmap_ext. intros j L HjL. apply lookup_seqZ in HjL.
  apply stored_ext; [done | lia].
Qed.

Lemma fxpAutoCorrelation_surplus_input_witness :
  exists m1' m2',
    fxpAutoCorrelation 3 2 0 (Machine [300; -400; 500; 1; 2] [0; 0] [])
    = Some (tt, m1') /\
    fxpAutoCorrelation 3 2 0 (Machine [300; -400; 500; -9000] [5; 6] [])
    = Some (tt, m2') /\
    take (Z.to_nat 2) (AutoCorrData m1') = take (Z.to_nat 2) (AutoCorrData m2').
Proof.
  apply (fxpAutoCorrelation_surplus_input
           (Machine [300; -400; 500; 1; 2] [0; 0] [])
           (Machine [300; -400; 500; -9000] [5; 6] []) 3 2 0);
    (reflexivity || (cbn; lia)).
Defined.

(** * The file name of a path ([efn]) *)

Example efn_unix :
  efn (list_ascii_of_string "src/th_lite/thlib.c"%string ++ [zero]) = Some 12%nat.
Proof. reflexivity. Qed.

Example efn_dos :
  efn (list_ascii_of_string "d:thlib.c"%string ++ [zero; "x"%char]) = Some 2%nat.
Proof. reflexivity. Qed.

Lemma separator_not_nul (c : ascii) : is_separator c = true -> c <> zero.
Proof. intros Hc ->. discriminate Hc. Qed.

(** Up to a separator the loop only moves on: what [end_] was is forgotten. *)
Lemma efn_loop_separator (dir : list ascii) (c : ascii) (tail : list ascii) :
  Forall not_nul dir -> is_separator c = true ->
  forall s end_,
    efn_loop (dir ++ c :: tail) s end_
    = efn_loop tail (S (s + length dir)) (S (s + length dir)).
Proof.
  intros Hdir Hc. induction Hdir as [| d dir Hd _ IH]; intros s end_.
  - cbn [app efn_loop length]. rewrite Hc, Nat.add_0_r.
    by destruct (Ascii.eqb_spec c zero) as [Hz | _];
      [apply separator_not_nul in Hc |].
  - cbn [app efn_loop length].
    destruct (Ascii.eqb_spec d zero) as [Hz | _]; [done |].
    rewrite IH. by rewrite Nat.add_succ_r.
Qed.

(** Over a name without separators the loop keeps [end_]. *)
Lemma efn_loop_name (name rest : list ascii) :
  Forall not_nul name -> Forall no_separator name ->
  forall s end_, efn_loop (name ++ zero :: rest) s end_ = Some end_.
Proof.
  intros Hnul. induction Hnul as [| c name Hc _ IH]; intros Hsep s end_.
  - reflexivity.
  - cbn [app efn_loop]. apply Forall_cons in Hsep as [Hc' Hsep].
    destruct (Ascii.eqb_spec c zero) as [Hz | _]; [done |].
    rewrite Hc'. by apply IH.
Qed.

(** The result of the loop on a terminated string. *)
Lemma efn_loop_result (path rest : list ascii) :
  Forall not_nul path ->
  forall s end_,
    exists e,
      efn_loop (path ++ zero :: rest) s end_ = Some e /\
      ((e = end_ /\ Forall no_separator path) \/
       ((s < e <= s + length path)%nat /\
        (exists c, path !! (e - s - 1)%nat = Some c /\ is_separator c = true) /\
        Forall no_separator (drop (e - s) path))).
Proof.
  intros Hnul. induction Hnul as [| c path Hc _ IH]; intros s end_.
  - exists end_. split; [reflexivity |]. left. by split.
  - cbn [app efn_loop].
    destruct (Ascii.eqb_spec c zero) as [Hz | _]; [done |].
    destruct (IH (S s) (if is_separator c then S s else end_))
      as (e & -> & [[-> Hno] | (Hrange & (c' & Hc' & Hsep') & Hno)]).
    + eexists. split; [reflexivity |].
      destruct (is_separator c) eqn:Hsep.
      * right. split; [cbn; lia |]. split.
        -- exists c. split; [| done].
           by replace (S s - s - 1)%nat with O by lia.
        -- by replace (S s - s)%nat with 1%nat by lia.
      * left. split; [done |]. by constructor.
    + exists e. split; [reflexivity |]. right.
      split; [cbn; lia |]. split.
      * exists c'. split; [| done].
        by replace (e - s - 1)%nat with (S (e - S s - 1)) by lia.
      * by replace (e - s)%nat with (S (e - S s)) by lia.
Qed.

Lemma efn_result (path rest : list ascii) :
  Forall not_nul path ->
  exists e,
    efn (path ++ zero :: rest) = Some e /\
    (e <= length path)%nat /\
    Forall no_separator (drop e path) /\
    (e = O \/ exists c, path !! (e - 1)%nat = Some c /\ is_separator c = true).
Proof.
  intros Hnul.
  destruct (efn_loop_result path rest Hnul 0 0)
    as (e & Hrun & [[-> Hno] | (Hrange & (c & Hc & Hsep) & Hno)]).
  - exists O. split; [done |]. split; [lia |]. split; [done | by left].
  - exists e. split; [done |]. split; [lia |].
    rewrite Nat.sub_0_r in Hc, Hno. split; [done |]. right. by exists c.
Qed.

(** X12. On a terminated path, whatever follows the terminator, [efn]
    returns an offset [e] within the path such that the name from [e] on
    holds no separator ('/', backslash, ':') and the name starts the path or
    follows a separator: the name is the longest separator-free tail. *)
Theorem efn_file_name (path rest : list ascii) :
  Forall not_nul path ->
  exists e,
    efn (path ++ zero :: rest) = Some e /\
    (e <= length path)%nat /\
    Forall no_separator (drop e path) /\
    (e = O \/ exists c, path !! (e - 1)%nat = Some c /\ is_separator c = true).
Proof. apply efn_result. Qed.

Lemma efn_file_name_witness :
  exists e,
    efn (list_ascii_of_string "a/b:c"%string ++ zero :: list_ascii_of_string "/z"%string)
    = Some e /\
    (e <= length (list_ascii_of_string "a/b:c"%string))%nat /\
    Forall no_separator (drop e (list_ascii_of_string "a/b:c"%string)) /\
    (e = O \/ exists c, list_ascii_of_string "a/b:c"%string !! (e - 1)%nat = Some c /\
                        is_separator c = true).
Proof.
  apply (efn_file_name (list_ascii_of_string "a/b:c"%string) (list_ascii_of_string "/z"%string)).
  repeat constructor; discriminate.
Defined.

(** X13. Directory and name: for a path made of a directory part, one
    separator and a name without separators, [efn] returns the offset of the
    name, one past the separator; a trailing separator gives the empty
    name. *)
Theorem efn_directory (dir : list ascii) (c : ascii) (name rest : list ascii) :
  Forall not_nul dir -> is_separator c = true ->
  Forall not_nul name -> Forall no_separator name ->
  efn (dir ++ c :: name ++ zero :: rest) = Some (S (length dir)).
Proof.
  intros Hdir Hc Hnul Hsep. unfold efn.
  rewrite efn_loop_separator by done. by apply efn_loop_name.
Qed.

Lemma efn_directory_witness :
  efn (list_ascii_of_string "d:/eembc"%string ++ "/"%char
         :: list_ascii_of_string "algo.h"%string ++ zero :: [])
  = Some (S (length (list_ascii_of_string "d:/eembc"%string))).
Proof.
  apply (efn_directory (list_ascii_of_string "d:/eembc"%string) "/"%char
           (list_ascii_of_string "algo.h"%string) []).
  - repeat constructor; discriminate.
  - reflexivity.
  - repeat constructor; discriminate.
  - repeat constructor.
Defined.

(** X14. [efn] is idempotent: applied to the name it returned, it returns
    that name (offset 0). *)
Theorem efn_idempotent (path rest : list ascii) (e : nat) :
  Forall not_nul path ->
  efn (path ++ zero :: rest) = Some e ->
  efn (drop e (path ++ zero :: rest)) = Some O.
Proof.
  intros Hnul Hrun.
  destruct (efn_result path rest Hnul) as (e' & Hrun' & Hle & Hno & _).
  assert (e' = e) as -> by congruence.
  rewrite drop_app_le by done. unfold efn.
  apply efn_loop_name; [| done].
  by apply Forall_drop.
Qed.

Lemma efn_idempotent_witness :
  efn (drop 4 (list_ascii_of_string "a/b:c"%string ++ zero :: [])) = Some O.
Proof.
  apply (efn_idempotent (list_ascii_of_string "a/b:c"%string) [] 4).
  - repeat constructor; discriminate.
  - reflexivity.
Defined.

Lemma efn_loop_none (cells : list ascii) :
  forall s end_, efn_loop cells s end_ = None <-> Forall not_nul cells.
Proof.
  induction cells as [| c cells IH]; intros s end_; cbn [efn_loop].
  - split; [constructor | done].
  - destruct (Ascii.eqb_spec c zero) as [-> | Hc].
    + split; [done |]. intros H. by apply Forall_cons in H as [H _].
    + rewrite IH. split; [by constructor |].
      intros H. by apply Forall_cons in H as [_ H].
Qed.

(** X15. [efn] has a result exactly on terminated strings: it has none if
    and only if the object holds no NUL from [fn] on. *)
Theorem efn_needs_terminator (fn : list ascii) :
  efn fn = None <-> Forall not_nul fn.
Proof. apply efn_loop_none. Qed.
